(** * iosxe_wlc: the RESTCONF client class [IosXeWlc]

    A shallow embedding of [src/iosxe_wlc/__init__.py] and the properties of
    its three operations ([test], [get_clients], [get_client_addresses]):
    MAC canonicalisation, the retry loop, the per-record address lookup, the
    credential update and what reaches the logger.

    Conventions of the embedding.
    - A Python [str] is a [string]; its characters are the code points 0..255,
      which is where every accepted MAC spelling lives.  [str.lower] is
      embedded exactly on that range.
    - A Python [int] is a [Z].
    - What [response.json()] returns, and what the operations return, is a
      [value]: the Python objects a JSON decoder builds.
    - [requests.get], the clock and the logger are the environment: a
      [transport] answers each request, a [world] records the requests sent
      and the messages handed to the logger, most recent first.
    - A Python function is a computation in the monad [M]: it reads and
      extends the [world] and either returns or raises; what was sent and
      logged before an exception stays sent and logged. *)

From Stdlib Require Import ZArith List String Ascii Bool Lia DecimalString.
Import ListNotations.
Local Open Scope string_scope.
Local Open Scope Z_scope.
Set Warnings "-register-all".

(** ** Python strings *)

(** [s.replace(c, '')] for a one-character [c]. *)
Fixpoint replace_char (c : ascii) (s : string) : string :=
  match s with
  | EmptyString => EmptyString
  | String a s' =>
      if Ascii.eqb a c then replace_char c s' else String a (replace_char c s')
  end.

(** [str.lower] on one code point below 256: the letters [A]..[Z] and the
    Latin-1 capitals U+00C0..U+00DE other than the multiplication sign
    U+00D7 move up by 32, everything else stays. *)
Definition lower_char (a : ascii) : ascii :=
  let n := N_of_ascii a in
  if ((65 <=? n) && (n <=? 90)
      || (192 <=? n) && (n <=? 222) && negb (n =? 215))%N
  then ascii_of_N (n + 32) else a.

Fixpoint lower (s : string) : string :=
  match s with
  | EmptyString => EmptyString
  | String a s' => String (lower_char a) (lower s')
  end.

(** [len(s)] *)
Definition len (s : string) : Z := Z.of_nat (String.length s).

(** The slice [s[i:j]] for [0 <= i <= j]. *)
Definition slice (i j : nat) (s : string) : string := substring i (j - i) s.

(** [f"{n}"] for an [int]. *)
Definition str_of_int (n : Z) : string := NilZero.string_of_int (Z.to_int n).

(** ** Python values and exceptions *)

(** The objects [json.loads] builds.  A [dict] keeps its keys in insertion
    order; a [float] is kept as its printed form, nothing computes with it. *)
Inductive value : Type :=
| VNone
| VBool (b : bool)
| VInt (n : Z)
| VFloat (repr : string)
| VStr (s : string)
| VList (items : list value)
| VDict (fields : list (string * value)).

(** [type(v).__name__] *)
Definition type_name (v : value) : string :=
  match v with
  | VNone => "NoneType"
  | VBool _ => "bool"
  | VInt _ => "int"
  | VFloat _ => "float"
  | VStr _ => "str"
  | VList _ => "list"
  | VDict _ => "dict"
  end.

(** An instance of a subclass of [Exception]: its class name and [str(e)].
    These are the exceptions [except Exception] catches. *)
Record exn : Type := mk_exn { exn_class : string; exn_str : string }.

Inductive result (A : Type) : Type :=
| Ok (a : A)
| Raise (e : exn).
Arguments Ok {A} a.
Arguments Raise {A} e.

Definition ValueError (msg : string) : exn := mk_exn "ValueError" msg.
Definition TypeError (msg : string) : exn := mk_exn "TypeError" msg.
Definition AttributeError (v : value) (attr : string) : exn :=
  mk_exn "AttributeError"
    ("'" ++ type_name v ++ "' object has no attribute '" ++ attr ++ "'").
Definition KeyError (key : string) : exn :=
  mk_exn "KeyError" ("'" ++ key ++ "'").

(** *** Dictionaries *)

Fixpoint dict_get (key : string) (d : list (string * value)) : option value :=
  match d with
  | [] => None
  | (k, v) :: d' => if String.eqb k key then Some v else dict_get key d'
  end.

(** [d[key] = v]: an existing key keeps its place, a new one goes last. *)
Fixpoint dict_set (key : string) (v : value) (d : list (string * value))
  : list (string * value) :=
  match d with
  | [] => [(key, v)]
  | (k, x) :: d' =>
      if String.eqb k key then (k, v) :: d' else (k, x) :: dict_set key v d'
  end.

(** [v.get(key, default)] *)
Definition py_get (v : value) (key : string) (default : value) : result value :=
  match v with
  | VDict d => Ok (match dict_get key d with Some x => x | None => default end)
  | _ => Raise (AttributeError v "get")
  end.

(** [len(v)] *)
Definition py_len (v : value) : result Z :=
  match v with
  | VStr s => Ok (len s)
  | VList l => Ok (Z.of_nat (List.length l))
  | VDict d => Ok (Z.of_nat (List.length d))
  | _ => Raise (TypeError ("object of type '" ++ type_name v ++ "' has no len()"))
  end.

Fixpoint chars (s : string) : list value :=
  match s with
  | EmptyString => []
  | String a s' => VStr (String a EmptyString) :: chars s'
  end.

(** What [for x in v] goes through. *)
Definition py_iter (v : value) : result (list value) :=
  match v with
  | VList l => Ok l
  | VDict d => Ok (map (fun kv => VStr (fst kv)) d)
  | VStr s => Ok (chars s)
  | _ => Raise (TypeError ("'" ++ type_name v ++ "' object is not iterable"))
  end.

(** [v[key]] for a [str] key (the texts are those of CPython 3.11). *)
Definition py_getitem (v : value) (key : string) : result value :=
  match v with
  | VDict d =>
      match dict_get key d with
      | Some x => Ok x
      | None => Raise (KeyError key)
      end
  | VStr _ => Raise (TypeError "string indices must be integers, not 'str'")
  | VList _ => Raise (TypeError "list indices must be integers or slices, not str")
  | _ => Raise (TypeError ("'" ++ type_name v ++ "' object is not subscriptable"))
  end.

(** [v[key] = x] for a [str] key. *)
Definition py_setitem (v : value) (key : string) (x : value) : result value :=
  match v with
  | VDict d => Ok (VDict (dict_set key x d))
  | VList _ => Raise (TypeError "list indices must be integers or slices, not str")
  | _ =>
      Raise (TypeError
               ("'" ++ type_name v ++ "' object does not support item assignment"))
  end.

(** ** MAC addresses: lines 43-50 of [get_clients], 77-84 of
    [get_client_addresses] (the two blocks are the same text) *)

(** [client.replace(':', '').replace('-', '').replace('.', '')] *)
Definition strip_separators (s : string) : string :=
  replace_char "." (replace_char "-" (replace_char ":" s)).

Definition hex_chars : list ascii :=
  ["0"; "1"; "2"; "3"; "4"; "5"; "6"; "7"; "8"; "9";
   "a"; "b"; "c"; "d"; "e"; "f"]%char.

(** [character in ['0', ..., 'f']] *)
Definition is_hex_char (a : ascii) : bool := existsb (Ascii.eqb a) hex_chars.

(** The first character the [for character in client] loop rejects. *)
Fixpoint first_invalid (s : string) : option ascii :=
  match s with
  | EmptyString => None
  | String a s' => if is_hex_char a then first_invalid s' else Some a
  end.

Definition format_mac (client : string) : string :=
  slice 0 2 client ++ ":" ++ slice 2 4 client ++ ":" ++ slice 4 6 client ++ ":"
  ++ slice 6 8 client ++ ":" ++ slice 8 10 client ++ ":" ++ slice 10 12 client.

(** The [if client is not None:] block.  The argument is whatever object the
    caller passes; the result is the [client] the rest of the method uses. *)
Definition check_client (client : value) : result (option string) :=
  match client with
  | VNone => Ok None
  | VStr s =>
      let client := lower (strip_separators s) in
      if negb (len client =? 12) then
        Raise (ValueError
                 ("Expecting a client MAC address with 12 characters and got "
                  ++ client))
      else
        match first_invalid client with
        | Some character =>
            Raise (ValueError
                     ("Expecting MAC address and got an invalid char ("
                      ++ String character "" ++ ") " ++ client))
        | None => Ok (Some (format_mac client))
        end
  | _ => Raise (AttributeError client "replace")
  end.

(** ** The environment: transport, clock and logger *)

(** [verify=self.ca_cert if self.ca_cert is not None else True] *)
Inductive verify_mode : Type :=
| VerifyDefault
| VerifyFile (path : string).

(** The arguments of one [requests.get] call. *)
Record request : Type := mk_request {
  url : string;
  auth : string * string;
  req_timeout : Z;
  verify : verify_mode;
  headers : list (string * string)
}.

(** What the method reads of a response: its status, what [response.json()]
    does, and [elapsed], the text of [time() - start_time] for the call (the
    clock's part; it only ever goes into a log message). *)
Record response : Type := mk_response {
  status_code : Z;
  json : result value;
  elapsed : string
}.

Inductive outcome : Type :=
| Responds (r : response)
| Fails (e : exn).

(** A transport answers the latest request knowing every request sent so
    far: the argument lists them, the one to answer first. *)
Definition transport : Type := list request -> outcome.

Inductive level : Type := DEBUG | INFO | WARNING | ERROR.

Record logger : Type := mk_logger { logger_level : level; logger_name : string }.

(** [create_logger] of the external package [logging_handler]: a logger is
    known by the threshold and the name it was created with; what it is
    handed goes to the [world], below. *)
Definition create_logger (log_level : level) (name : string) : logger :=
  mk_logger log_level name.

(** One message handed to a logger. *)
Record log_entry : Type := mk_entry {
  entry_logger : string;
  entry_level : level;
  entry_message : string
}.

Record world : Type := mk_world {
  calls : list request;
  logs : list log_entry
}.

Definition M (A : Type) : Type := world -> result A * world.

Definition ret {A} (a : A) : M A := fun w => (Ok a, w).

Definition bind {A B} (m : M A) (k : A -> M B) : M B :=
  fun w =>
    match m w with
    | (Ok a, w') => k a w'
    | (Raise e, w') => (Raise e, w')
    end.

(** [try: m  except Exception as e: handler e] *)
Definition catch {A} (m : M A) (handler : exn -> M A) : M A :=
  fun w =>
    match m w with
    | (Ok a, w') => (Ok a, w')
    | (Raise e, w') => handler e w'
    end.

Definition lift {A} (r : result A) : M A := fun w => (r, w).

Notation "x <- c ;; k" := (bind c (fun x => k))
  (at level 61, c at next level, right associativity).
Notation "c ;; k" := (bind c (fun _ => k))
  (at level 61, right associativity).

(** [lg.debug(msg)], [lg.info(msg)], ... *)
Definition log (lg : logger) (lvl : level) (msg : string) : M unit :=
  fun w =>
    (Ok tt, mk_world (calls w) (mk_entry (logger_name lg) lvl msg :: logs w)).

(** [for i in range(n): body(i)] followed by [orelse]; a body that answers
    [Some a] has executed [return a]. *)
Fixpoint for_range {A} (n : nat) (i : Z) (body : Z -> M (option A))
  (orelse : M A) : M A :=
  match n with
  | O => orelse
  | S n' =>
      r <- body i ;;
      match r with
      | Some a => ret a
      | None => for_range n' (i + 1) body orelse
      end
  end.

(** ** The class *)

Record IosXeWlc : Type := mk_IosXeWlc {
  host : string;
  username : string;
  __password : string;
  ca_cert : option string;
  timeout : Z;
  retry : Z;
  _logger : logger
}.

Definition __init__ (host username password : string) (ca_cert : option string)
  (log_level : level) : IosXeWlc :=
  mk_IosXeWlc host username password ca_cert 5 3
    (create_logger log_level ("IOS-XE-WLC(" ++ host ++ ")")).

(** The assignment to [self.username, self.__password] is the new state of
    the object. *)
Definition update_creds (self : IosXeWlc) (username password : string)
  : M IosXeWlc :=
  log (_logger self) DEBUG ("Updating credentials. Username: " ++ username) ;;
  ret (mk_IosXeWlc (host self) username password (ca_cert self) (timeout self)
         (retry self) (_logger self)).

(** The keyword arguments every call site passes to [requests.get]. *)
Definition get_request (self : IosXeWlc) (url : string) : request :=
  mk_request url (username self, __password self) (timeout self)
    (match ca_cert self with Some path => VerifyFile path | None => VerifyDefault end)
    [("accept", "application/yang-data+json")].

Definition test_url (self : IosXeWlc) : string :=
  "https://" ++ host self ++ "/restconf/".

Definition clients_url (self : IosXeWlc) (client : option string) : string :=
  "https://" ++ host self
  ++ "/restconf/data/Cisco-IOS-XE-wireless-client-oper:client-oper-data/common-oper-data"
  ++ match client with None => "" | Some c => "=" ++ c end.

Definition addresses_url (self : IosXeWlc) (client : option string) : string :=
  "https://" ++ host self
  ++ "/restconf/data/Cisco-IOS-XE-wireless-client-oper:client-oper-data/sisf-db-mac"
  ++ match client with None => "" | Some c => "=" ++ c end.

Definition clients_key : string :=
  "Cisco-IOS-XE-wireless-client-oper:common-oper-data".

Definition addresses_key : string :=
  "Cisco-IOS-XE-wireless-client-oper:sisf-db-mac".

(** ['all users' if client is None else client] *)
Definition who (client : option string) : string :=
  match client with None => "all users" | Some c => c end.

(** The message after an exhausted loop; [name] is [Test], [GET_CLIENTS] or
    [GET_CLIENT_ADDRESSES]. *)
Definition failed_message (name : string) (self : IosXeWlc) : string :=
  name ++ " Failed! Tried " ++ str_of_int (retry self + 1)
  ++ " times. Timeout is " ++ str_of_int (timeout self)
  ++ ". Check credentials and host and try again.".

Section Operations.

(** What [requests.get] does. *)
Variable net : transport.

Definition requests_get (r : request) : M response :=
  fun w =>
    let w' := mk_world (r :: calls w) (logs w) in
    match net (r :: calls w) with
    | Responds resp => (Ok resp, w')
    | Fails e => (Raise e, w')
    end.

(** *** [test] *)

(** One turn of the loop of [test]. *)
Definition test_try (self : IosXeWlc) (try_number : Z) : M (option bool) :=
  catch
    (response <- requests_get (get_request self (test_url self)) ;;
     if status_code response =? 200 then
       log (_logger self) INFO
         ("Test successful. Status code: " ++ str_of_int (status_code response)
          ++ ". Try " ++ str_of_int (try_number + 1) ++ ", response time: "
          ++ elapsed response) ;;
       ret (Some true)
     else
       log (_logger self) WARNING
         ("Test " ++ str_of_int (try_number + 1) ++ " failed. Try "
          ++ str_of_int (try_number + 1) ++ ", Status code: "
          ++ str_of_int (status_code response) ++ ". Response time: "
          ++ elapsed response) ;;
       ret None)
    (fun e =>
       log (_logger self) WARNING
         ("Test " ++ str_of_int (try_number + 1) ++ " failed. Try "
          ++ str_of_int (try_number + 1) ++ ", Error: " ++ exn_class e ++ ": "
          ++ exn_str e) ;;
       ret None).

Definition test (self : IosXeWlc) : M bool :=
  log (_logger self) DEBUG "Starting test..." ;;
  for_range (Z.to_nat (retry self)) 0 (test_try self)
    (log (_logger self) ERROR (failed_message "Test" self) ;;
     ret false).

(** *** [get_client_addresses] *)

Definition get_client_addresses_try (self : IosXeWlc) (client : option string)
  (try_number : Z) : M (option value) :=
  catch
    (response <- requests_get (get_request self (addresses_url self client)) ;;
     if status_code response =? 200 then
       body <- lift (json response) ;;
       client_list <- lift (py_get body addresses_key (VList [])) ;;
       n <- lift (py_len client_list) ;;
       log (_logger self) DEBUG
         ("GET_CLIENT_ADDRESSES successful for " ++ who client ++ ". Returned "
          ++ str_of_int n ++ " clients. Status code: "
          ++ str_of_int (status_code response) ++ ". Try "
          ++ str_of_int (try_number + 1) ++ ", response time: "
          ++ elapsed response) ;;
       ret (Some client_list)
     else
       log (_logger self) WARNING
         ("GET_CLIENT_ADDRESSES failed for " ++ who client ++ ". Status code: "
          ++ str_of_int (status_code response) ++ ". Try "
          ++ str_of_int (try_number + 1) ++ ", response time: "
          ++ elapsed response) ;;
       ret None)
    (fun e =>
       log (_logger self) WARNING
         ("GET_CLIENT_ADDRESSES failed for " ++ who client ++ ". Error: "
          ++ exn_class e ++ ": " ++ exn_str e) ;;
       ret None).

(** The loop and what follows it, from the validated [client] on. *)
Definition get_client_addresses_loop (self : IosXeWlc) (client : option string)
  (n : nat) (try_number : Z) : M value :=
  for_range n try_number (get_client_addresses_try self client)
    (log (_logger self) ERROR (failed_message "GET_CLIENT_ADDRESSES" self) ;;
     ret (VList [])).

Definition get_client_addresses (self : IosXeWlc) (client : value) : M value :=
  client <- lift (check_client client) ;;
  log (_logger self) DEBUG
    ("Starting GET_CLIENT_ADDRESSES for " ++ who client ++ "...") ;;
  get_client_addresses_loop self client (Z.to_nat (retry self)) 0.

(** *** [get_clients] *)

(** [for client_obj in client_list:
       client_obj['ip_addr'] = self.get_client_addresses(client_obj['client-mac'])]
    over the objects the loop visits; the result is what they have become.
    The right-hand side is evaluated before the assignment. *)
Fixpoint add_ip_info (self : IosXeWlc) (items : list value) : M (list value) :=
  match items with
  | [] => ret []
  | client_obj :: rest =>
      mac <- lift (py_getitem client_obj "client-mac") ;;
      ip_addr <- get_client_addresses self mac ;;
      client_obj' <- lift (py_setitem client_obj "ip_addr" ip_addr) ;;
      rest' <- add_ip_info self rest ;;
      ret (client_obj' :: rest')
  end.

(** The [if get_ip_info:] block; the result is [client_list] after it.  Only
    the elements of a [list] can have been assigned to: a [dict] or a [str]
    is visited key by key or character by character, each a [str]. *)
Definition get_ip_info_block (self : IosXeWlc) (get_ip_info : bool)
  (client_list : value) : M value :=
  if get_ip_info then
    items <- lift (py_iter client_list) ;;
    items' <- add_ip_info self items ;;
    ret (match client_list with VList _ => VList items' | _ => client_list end)
  else ret client_list.

Definition get_clients_try (self : IosXeWlc) (client : option string)
  (get_ip_info : bool) (try_number : Z) : M (option value) :=
  catch
    (response <- requests_get (get_request self (clients_url self client)) ;;
     if status_code response =? 200 then
       body <- lift (json response) ;;
       client_list <- lift (py_get body clients_key (VList [])) ;;
       n <- lift (py_len client_list) ;;
       log (_logger self) DEBUG
         ("GET_CLIENTS successful for " ++ who client ++ ". Returned "
          ++ str_of_int n ++ " clients. Status code: "
          ++ str_of_int (status_code response) ++ ". Try "
          ++ str_of_int (try_number + 1) ++ ", response time: "
          ++ elapsed response) ;;
       client_list <- get_ip_info_block self get_ip_info client_list ;;
       ret (Some client_list)
     else
       log (_logger self) WARNING
         ("GET_CLIENTS failed for " ++ who client ++ ". Status code: "
          ++ str_of_int (status_code response) ++ ". Try "
          ++ str_of_int (try_number + 1) ++ ", response time: "
          ++ elapsed response) ;;
       ret None)
    (fun e =>
       log (_logger self) WARNING
         ("GET_CLIENTS failed for " ++ who client ++ ". Error: "
          ++ exn_class e ++ ": " ++ exn_str e) ;;
       ret None).

Definition get_clients_loop (self : IosXeWlc) (client : option string)
  (get_ip_info : bool) (n : nat) (try_number : Z) : M value :=
  for_range n try_number (get_clients_try self client get_ip_info)
    (log (_logger self) ERROR (failed_message "GET_CLIENTS" self) ;;
     ret (VList [])).

Definition get_clients (self : IosXeWlc) (client : value) (get_ip_info : bool)
  : M value :=
  client <- lift (check_client client) ;;
  log (_logger self) DEBUG ("Starting GET_CLIENTS for " ++ who client ++ "...") ;;
  get_clients_loop self client get_ip_info (Z.to_nat (retry self)) 0.

End Operations.

(** ** The operations as data, for statements about all three *)

Inductive operation : Type :=
| Test
| GetClients (client : value) (get_ip_info : bool)
| GetClientAddresses (client : value).

Definition perform (net : transport) (self : IosXeWlc) (op : operation) : M value :=
  match op with
  | Test => b <- test net self ;; ret (VBool b)
  | GetClients client get_ip_info => get_clients net self client get_ip_info
  | GetClientAddresses client => get_client_addresses net self client
  end.

(** The request an operation sends on every turn of its own loop. *)
Definition own_request (self : IosXeWlc) (op : operation) : result request :=
  match op with
  | Test => Ok (get_request self (test_url self))
  | GetClients client _ =>
      match check_client client with
      | Ok c => Ok (get_request self (clients_url self c))
      | Raise e => Raise e
      end
  | GetClientAddresses client =>
      match check_client client with
      | Ok c => Ok (get_request self (addresses_url self c))
      | Raise e => Raise e
      end
  end.

Definition op_name (op : operation) : string :=
  match op with
  | Test => "Test"
  | GetClients _ _ => "GET_CLIENTS"
  | GetClientAddresses _ => "GET_CLIENT_ADDRESSES"
  end.

(** What an operation answers when its loop runs out. *)
Definition negative_result (op : operation) : value :=
  match op with
  | Test => VBool false
  | _ => VList []
  end.

(** An attempt fails at the transport: an exception, or a status other
    than 200. *)
Definition outcome_fails (o : outcome) : bool :=
  match o with
  | Fails _ => true
  | Responds r => negb (status_code r =? 200)
  end.

(** The answer to attempt number [j] (from 0) of an operation that started in
    world [w] and has sent nothing but [req] since. *)
Definition attempt_outcome (net : transport) (req : request) (w : world)
  (j : nat) : outcome :=
  net (repeat req (S j) ++ calls w)%list.

(** The array a response carries under [key], for a body that is a JSON object
    in which [key] is absent or holds an array. *)
Definition envelope (key : string) (r : response) : option (list value) :=
  match json r with
  | Ok (VDict d) =>
      match dict_get key d with
      | None => Some []
      | Some (VList l) => Some l
      | Some _ => None
      end
  | _ => None
  end.

(** What an operation returns on a 200 response, when the body is as
    [envelope] wants it. *)
Definition success_result (op : operation) (r : response) : option value :=
  match op with
  | Test => Some (VBool true)
  | GetClients _ _ => option_map VList (envelope clients_key r)
  | GetClientAddresses _ => option_map VList (envelope addresses_key r)
  end.

(** The operation makes no address lookups of its own accord. *)
Definition without_lookups (op : operation) : bool :=
  match op with
  | GetClients _ get_ip_info => negb get_ip_info
  | _ => true
  end.

(** The key under which a listing operation finds its array. *)
Definition envelope_key (op : operation) : option string :=
  match op with
  | Test => None
  | GetClients _ _ => Some clients_key
  | GetClientAddresses _ => Some addresses_key
  end.

(** ** Spellings of a MAC address *)

Inductive hex : Type :=
| H0 | H1 | H2 | H3 | H4 | H5 | H6 | H7
| H8 | H9 | HA | HB | HC | HD | HE | HF.

Definition lower_hex (d : hex) : ascii :=
  match d with
  | H0 => "0" | H1 => "1" | H2 => "2" | H3 => "3"
  | H4 => "4" | H5 => "5" | H6 => "6" | H7 => "7"
  | H8 => "8" | H9 => "9" | HA => "a" | HB => "b"
  | HC => "c" | HD => "d" | HE => "e" | HF => "f"
  end%char.

Definition upper_hex (d : hex) : ascii :=
  match d with
  | HA => "A" | HB => "B" | HC => "C" | HD => "D" | HE => "E" | HF => "F"
  | _ => lower_hex d
  end%char.

(** A byte of an address: two hex digits. *)
Definition octet : Type := (hex * hex)%type.

(** A byte as somebody wrote it: each digit with the case it was written in
    ([true] for upper case). *)
Definition written_octet : Type := ((hex * bool) * (hex * bool))%type.

Definition read_octet (o : written_octet) : octet := (fst (fst o), fst (snd o)).

Definition write_digit (d : hex * bool) : ascii :=
  if snd d then upper_hex (fst d) else lower_hex (fst d).

Definition write_octet (o : written_octet) : string :=
  String (write_digit (fst o)) (String (write_digit (snd o)) "").

Fixpoint join (sep : string) (parts : list string) : string :=
  match parts with
  | [] => ""
  | [p] => p
  | p :: rest => p ++ sep ++ join sep rest
  end.

Inductive separator : Type := NoSeparator | Colons | Dashes | Dots.

Definition separator_text (sep : separator) : string :=
  match sep with
  | NoSeparator => ""
  | Colons => ":"
  | Dashes => "-"
  | Dots => "."
  end.

(** [aabbccddeeff], [aa:bb:cc:dd:ee:ff], [aa-bb-cc-dd-ee-ff] or
    [aa.bb.cc.dd.ee.ff], each digit in the case chosen for it. *)
Definition spelling (sep : separator) (os : list written_octet) : string :=
  join (separator_text sep) (map write_octet os).

Definition lower_octet (o : octet) : string :=
  String (lower_hex (fst o)) (String (lower_hex (snd o)) "").

(** The canonical form: lowercase byte pairs joined by colons. *)
Definition canonical (os : list octet) : string := join ":" (map lower_octet os).

(** The digits alone, lowercase. *)
Definition plain (os : list octet) : string := join "" (map lower_octet os).

(** ** The address lookups of an enriched client list, in the spec's words:
    one lookup per record, for that record's [client-mac], the result stored
    as the record's [ip_addr]. *)

Inductive enriched (net : transport) (self : IosXeWlc)
  : world -> list value -> list value -> world -> Prop :=
| enriched_nil : forall w, enriched net self w [] [] w
| enriched_cons : forall w d mac ip_addr w1 rest rest' w2,
    dict_get "client-mac" d = Some mac ->
    get_client_addresses net self mac w = (Ok ip_addr, w1) ->
    enriched net self w1 rest rest' w2 ->
    enriched net self w (VDict d :: rest)
      (VDict (dict_set "ip_addr" ip_addr d) :: rest') w2.

(** Every invocation of [get_client_addresses] that gets past the check of its
    argument logs one message that starts like this, and nothing else does. *)
Definition is_lookup_start (e : log_entry) : bool :=
  String.prefix "Starting GET_CLIENT_ADDRESSES for " (entry_message e).

Definition lookups_started (w : world) : nat :=
  List.length (filter is_lookup_start (logs w)).

(** ** One turn of a loop, seen from outside *)

(** A turn that met a failure: it sent [req], logged a warning, which is not
    the opening message of a lookup, and asks for the next turn. *)
Definition warned_after (self : IosXeWlc) (req : request) (w w' : world) : Prop :=
  calls w' = req :: calls w
  /\ (exists msg,
        logs w' = mk_entry (logger_name (_logger self)) WARNING msg :: logs w)
  /\ lookups_started w' = lookups_started w.

(** A turn that sent [req] and nothing else. *)
Definition sent_once (req : request) (w w' : world) : Prop :=
  calls w' = req :: calls w.

Ltac unfold_monad := unfold catch, bind, lift, ret, log, requests_get.

(** The world in which [get_clients] starts its lookups: the request of this
    turn has been answered with [r], a 200 carrying [records], and the debug
    message about it has been logged. *)
Definition lookups_begin (self : IosXeWlc) (client : option string)
  (try_number : Z) (r : response) (records : list value) (w : world) : world :=
  mk_world (get_request self (clients_url self client) :: calls w)
    (mk_entry (logger_name (_logger self)) DEBUG
       ("GET_CLIENTS successful for " ++ who client ++ ". Returned "
        ++ str_of_int (Z.of_nat (List.length records))
        ++ " clients. Status code: " ++ str_of_int (status_code r) ++ ". Try "
        ++ str_of_int (try_number + 1) ++ ", response time: " ++ elapsed r)
     :: logs w).

(** A record whose lookup raises: no [client-mac], or one that is a string the
    check rejects. *)
Definition bad_record (client_obj : value) : bool :=
  match client_obj with
  | VDict d =>
      match dict_get "client-mac" d with
      | None => true
      | Some (VStr s) =>
          match check_client (VStr s) with Raise _ => true | Ok _ => false end
      | Some _ => false
      end
  | _ => false
  end.

(** A record whose lookup goes through: a [client-mac] that is [None] or a
    string the check accepts. *)
Definition good_record (client_obj : value) : bool :=
  match client_obj with
  | VDict d =>
      match dict_get "client-mac" d with
      | Some mac => match check_client mac with Ok _ => true | Raise _ => false end
      | None => false
      end
  | _ => false
  end.

(** ** What a computation does to the world *)

(** [w'] is [w] with further requests sent, each of them satisfying [P]. *)
Definition extends (P : request -> Prop) (w w' : world) : Prop :=
  exists new, calls w' = (new ++ calls w)%list /\ Forall P new.

(** Every request the computation sends satisfies [P]. *)
Definition sends {A} (P : request -> Prop) (m : M A) : Prop :=
  forall w, extends P w (snd (m w)).

(** The computation leaves the count [f] as it found it. *)
Definition preserves {A} (f : world -> nat) (m : M A) : Prop :=
  forall w, f (snd (m w)) = f w.

(** The number of requests sent to [u]. *)
Definition sent_to (u : string) (w : world) : nat :=
  List.length (filter (fun r => String.eqb (url r) u) (calls w)).

(** ** Sessions: a caller's sequence of method calls on one instance *)

Inductive step : Type :=
| UpdateCreds (username password : string)
| Call (op : operation).

(** The caller sees each call return or raise and goes on either way. *)
Fixpoint session (net : transport) (self : IosXeWlc) (steps : list step)
  (w : world) : list (result value) * world :=
  match steps with
  | [] => ([], w)
  | UpdateCreds u p :: rest =>
      match update_creds self u p w with
      | (Ok self', w') =>
          let (rs, w'') := session net self' rest w' in (Ok VNone :: rs, w'')
      | (Raise e, w') =>
          let (rs, w'') := session net self rest w' in (Raise e :: rs, w'')
      end
  | Call op :: rest =>
      let (r, w') := perform net self op w in
      let (rs, w'') := session net self rest w' in (r :: rs, w'')
  end.

(** The same request, the same instance, the same session with every
    password blanked. *)
Definition blank_request (r : request) : request :=
  mk_request (url r) (fst (auth r), "") (req_timeout r) (verify r) (headers r).

Definition blank_instance (self : IosXeWlc) : IosXeWlc :=
  mk_IosXeWlc (host self) (username self) "" (ca_cert self) (timeout self)
    (retry self) (_logger self).

Definition blank_step (s : step) : step :=
  match s with
  | UpdateCreds u _ => UpdateCreds u ""
  | Call op => Call op
  end.

Definition blank_world (w : world) : world :=
  mk_world (map blank_request (calls w)) (logs w).

(** A transport whose answers do not depend on the passwords it is sent. *)
Definition password_blind (net : transport) : Prop :=
  forall h, net (map blank_request h) = net h.

(** The transport that gives a fixed sequence of answers: answer [n] to the
    [n]-th request, from 0. *)
Definition scripted (script : nat -> outcome) : transport :=
  fun h => script (pred (List.length h)).

(** [m'] is [m] run without the passwords: from the world with every password
    blanked it returns what [m] returns and ends in the world [m] ends in,
    with every password blanked. *)
Definition blind_to_passwords {A} (m m' : M A) : Prop :=
  forall w, m' (blank_world w) = (fst (m w), blank_world (snd (m w))).

(** ** Answers of the transport along a run *)

(** [final] is [h] with further requests sent. *)
Definition suffix_of (h final : list request) : Prop :=
  exists new, final = (new ++ h)%list.

(** The answer [net] gave to request number [n] (from 1) of a run whose
    requests, all told, are [final]: the transport saw that request and those
    before it. *)
Definition nth_answer (net : transport) (final : list request) (n : nat)
  : outcome :=
  net (skipn (List.length final - n) final).

(** On every request of the run up to [final] that comes after those of [cs],
    [net'] answers as [net] does. *)
Definition answers_alike_from (cs final : list request) (net net' : transport)
  : Prop :=
  forall r pre,
    suffix_of cs pre -> suffix_of (r :: pre) final ->
    net' (r :: pre) = net (r :: pre).

(** [m'], which asks [net'], does what [m], which asks [net], does, whenever
    [m] stays within the run up to [final] and the two transports answer
    alike there; and [m] only ever adds requests. *)
Definition replays (net net' : transport) (final : list request) {A}
  (m m' : M A) : Prop :=
  (forall w, suffix_of (calls w) (calls (snd (m w))))
  /\ (forall w,
        suffix_of (calls (snd (m w))) final ->
        answers_alike_from (calls w) final net net' ->
        m' w = m w).

(** ** Fixtures for the examples *)

Definition wlc1 : IosXeWlc := __init__ "wlc1" "admin" "secret" None INFO.

Definition fresh : world := mk_world [] [].

(** A transport that refuses every connection. *)
Definition refusing : transport :=
  fun _ => Fails (mk_exn "ConnectionError" "connection refused").

(** A device with one client: the client list holds one record, the address
    table one binding, whatever the key of the request. *)
Definition one_client : transport :=
  fun h =>
    match h with
    | r :: _ =>
        if String.prefix (clients_url wlc1 None) (url r) then
          Responds
            (mk_response 200
               (Ok (VDict [(clients_key,
                            VList [VDict [("client-mac", VStr "aa:bb:cc:dd:ee:ff")]])]))
               "0.01")
        else
          Responds
            (mk_response 200
               (Ok (VDict [(addresses_key,
                            VList [VDict [("ipv4", VStr "10.0.0.7")]])]))
               "0.02")
    | [] => Fails (mk_exn "ConnectionError" "no request")
    end.

(** A device that answers 200 with a body that parses, to the array [[]]
    and not to an object. *)
Definition bare_array : transport :=
  fun _ => Responds (mk_response 200 (Ok (VList [])) "0.01").

(** A device that refuses the first two connections and then answers 200 with
    an empty object. *)
Definition third_time_lucky : transport :=
  fun h =>
    if (List.length h <? 3)%nat
    then Fails (mk_exn "ConnectionError" "connection refused")
    else Responds (mk_response 200 (Ok (VDict [])) "0.01").

(** A device whose address table is empty and whose client list first holds a
    record without [client-mac] after a good one, and from the second time it
    is asked only the good one. *)
Definition second_thoughts : transport :=
  fun h =>
    match h with
    | r :: _ =>
        if String.prefix (clients_url wlc1 None) (url r) then
          let asked :=
            List.length
              (filter (fun q => String.prefix (clients_url wlc1 None) (url q)) h) in
          Responds
            (mk_response 200
               (Ok (VDict
                      [(clients_key,
                        VList
                          (VDict [("client-mac", VStr "aa:bb:cc:dd:ee:ff")]
                           :: if (asked =? 1)%nat
                              then [VDict [("username", VStr "guest")]]
                              else []))]))
               "0.01")
        else Responds (mk_response 200 (Ok (VDict [(addresses_key, VList [])])) "0.02")
    | [] => Fails (mk_exn "ConnectionError" "no request")
    end.

(** A device whose client list always holds, after a good record, one whose
    [client-mac] is not a MAC address. *)
Definition one_bad_record : transport :=
  fun h =>
    match h with
    | r :: _ =>
        if String.prefix (clients_url wlc1 None) (url r) then
          Responds
            (mk_response 200
               (Ok (VDict
                      [(clients_key,
                        VList [VDict [("client-mac", VStr "aa:bb:cc:dd:ee:ff")];
                               VDict [("client-mac", VStr "unknown")]])]))
               "0.01")
        else Responds (mk_response 200 (Ok (VDict [(addresses_key, VList [])])) "0.02")
    | [] => Fails (mk_exn "ConnectionError" "no request")
    end.

(** The device of [one_client] behind a password: it answers 401 to a request
    that does not carry [pw]. *)
Definition guarded (pw : string) : transport :=
  fun h =>
    match h with
    | r :: _ =>
        if String.eqb (snd (auth r)) pw then one_client h
        else Responds (mk_response 401 (Raise (mk_exn "JSONDecodeError" "")) "0.01")
    | [] => one_client h
    end.

(** ** Further notions, for the properties beyond the claims *)

(** The number of requests sent so far. *)
Definition requests_sent (w : world) : nat := List.length (calls w).

(** A request of [get_clients] with the lookups on: its own, or the address
    request of one of its lookups. *)
Definition clients_or_lookup (self : IosXeWlc) (client : option string)
  (r : request) : Prop :=
  r = get_request self (clients_url self client)
  \/ exists c, r = get_request self (addresses_url self c).

(** [x'] is the record [x] after [x['ip_addr'] = ...]: the other fields are
    those of [x], in the order of [x]; [ip_addr] stands where it stood, or
    last if [x] had none. *)
Definition same_but_ip_addr (x x' : value) : Prop :=
  exists d d',
    x = VDict d /\ x' = VDict d'
    /\ (forall k, k <> "ip_addr" -> dict_get k d' = dict_get k d)
    /\ (exists a, dict_get "ip_addr" d' = Some a)
    /\ map fst d'
       = match dict_get "ip_addr" d with
         | Some _ => map fst d
         | None => (map fst d ++ ["ip_addr"])%list
         end.

(** The record [x] with an empty [ip_addr]. *)
Definition without_addresses (x : value) : value :=
  match x with
  | VDict d => VDict (dict_set "ip_addr" (VList []) d)
  | _ => x
  end.

(** [v] is what the answer to the last request of [w'] carries under [key]:
    a 200 whose body is a JSON object, [v] the value of [key] in it, or the
    empty list if it has none. *)
Definition carried (net : transport) (key : string) (v : value) (w' : world)
  : Prop :=
  exists r d,
    net (calls w') = Responds r
    /\ status_code r = 200
    /\ json r = Ok (VDict d)
    /\ v = match dict_get key d with Some x => x | None => VList [] end.

(** The level at which an operation logs the attempt that succeeds. *)
Definition success_level (op : operation) : level :=
  match op with
  | Test => INFO
  | _ => DEBUG
  end.

(** An entry of the logger of [self], at level [lvl]. *)
Definition own_entry (self : IosXeWlc) (lvl : level) (e : log_entry) : Prop :=
  entry_logger e = logger_name (_logger self) /\ entry_level e = lvl.

(** A device that lists one client and whose address table cannot be
    reached. *)
Definition addresses_down : transport :=
  fun h =>
    match h with
    | r :: _ =>
        if String.prefix (clients_url wlc1 None) (url r) then
          Responds
            (mk_response 200
               (Ok (VDict [(clients_key,
                            VList [VDict [("client-mac", VStr "aa:bb:cc:dd:ee:ff");
                                          ("username", VStr "guest")]])]))
               "0.01")
        else Responds (mk_response 503 (Raise (mk_exn "JSONDecodeError" "")) "0.02")
    | [] => Fails (mk_exn "ConnectionError" "no request")
    end.

(** * Properties *)

(** ** Strings *)

Lemma replace_char_app c s1 s2 :
  replace_char c (s1 ++ s2) = replace_char c s1 ++ replace_char c s2.
Proof.
  induction s1 as [|a s1 IH]; simpl; [reflexivity|].
  destruct (Ascii.eqb a c); simpl; rewrite IH; reflexivity.
Qed.

Lemma lower_app s1 s2 : lower (s1 ++ s2) = lower s1 ++ lower s2.
Proof.
  induction s1 as [|a s1 IH]; simpl; [reflexivity|].
  rewrite IH; reflexivity.
Qed.

Lemma normal_form_app s1 s2 :
  lower (strip_separators (s1 ++ s2)) =
  lower (strip_separators s1) ++ lower (strip_separators s2).
Proof.
  unfold strip_separators.
  rewrite !replace_char_app, lower_app. reflexivity.
Qed.

Lemma string_app_assoc (s1 s2 s3 : string) : (s1 ++ s2) ++ s3 = s1 ++ s2 ++ s3.
Proof.
  induction s1 as [|a s1 IH]; simpl; [reflexivity|].
  rewrite IH; reflexivity.
Qed.

Lemma string_app_inv_head (s a b : string) : s ++ a = s ++ b -> a = b.
Proof.
  induction s as [|c s IH]; simpl; intros H; [exact H|].
  injection H as H. auto.
Qed.

Lemma prefix_app (p s : string) : String.prefix p (p ++ s) = true.
Proof.
  induction p as [|a p IH]; simpl; [destruct s; reflexivity|].
  destruct (ascii_dec a a) as [_|Hne]; [exact IH | contradiction].
Qed.

(** ** MAC canonicalisation *)

Lemma is_hex_lower_hex d : is_hex_char (lower_hex d) = true.
Proof. destruct d; reflexivity. Qed.

Lemma normal_form_digit d s :
  lower (strip_separators (String (write_digit d) s)) =
  String (lower_hex (fst d)) (lower (strip_separators s)).
Proof.
  destruct d as [d up]; destruct d, up; reflexivity.
Qed.

Lemma normal_form_octet o :
  lower (strip_separators (write_octet o)) = lower_octet (read_octet o).
Proof.
  destruct o as [d1 d2]. unfold write_octet, lower_octet, read_octet.
  rewrite !normal_form_digit. reflexivity.
Qed.

Lemma normal_form_separator sep :
  lower (strip_separators (separator_text sep)) = "".
Proof. destruct sep; reflexivity. Qed.

Lemma normal_form_spelling sep ws :
  lower (strip_separators (spelling sep ws)) = plain (map read_octet ws).
Proof.
  unfold spelling, plain.
  induction ws as [|o ws IH]; [reflexivity|].
  destruct ws as [|o' ws].
  - simpl. apply normal_form_octet.
  - change (join (separator_text sep) (map write_octet (o :: o' :: ws)))
      with (write_octet o ++ separator_text sep
            ++ join (separator_text sep) (map write_octet (o' :: ws))).
    change (join "" (map lower_octet (map read_octet (o :: o' :: ws))))
      with (lower_octet (read_octet o) ++ ""
            ++ join "" (map lower_octet (map read_octet (o' :: ws)))).
    rewrite !normal_form_app, IH, normal_form_octet, normal_form_separator.
    reflexivity.
Qed.

(** Whatever reduces to the twelve digits of an address is accepted and
    becomes its canonical form; the separators may stand anywhere. *)
Lemma check_client_accepts s (os : list octet) :
  List.length os = 6%nat ->
  lower (strip_separators s) = plain os ->
  check_client (VStr s) = Ok (Some (canonical os)).
Proof.
  intros Hlen Hs. unfold check_client. rewrite Hs.
  destruct os as [|[a1 b1] [|[a2 b2] [|[a3 b3] [|[a4 b4] [|[a5 b5]
    [|[a6 b6] [|? ?]]]]]]]; try discriminate Hlen.
  cbn -[is_hex_char lower_hex].
  rewrite !is_hex_lower_hex. reflexivity.
Qed.

Lemma first_invalid_none s :
  first_invalid s = None ->
  forall a, In a (list_ascii_of_string s) -> is_hex_char a = true.
Proof.
  induction s as [|c s IH]; simpl; intros H a Ha; [contradiction|].
  destruct (is_hex_char c) eqn:Hc; [|discriminate].
  destruct Ha as [<-|Ha]; auto.
Qed.

Lemma check_client_rejects s :
  len (lower (strip_separators s)) <> 12
  \/ (exists a, In a (list_ascii_of_string (lower (strip_separators s)))
                /\ is_hex_char a = false) ->
  exists msg, check_client (VStr s) = Raise (ValueError msg).
Proof.
  intros H. unfold check_client.
  destruct (len (lower (strip_separators s)) =? 12) eqn:Hl; simpl.
  - destruct (first_invalid (lower (strip_separators s))) eqn:Hf.
    + eexists; reflexivity.
    + exfalso. destruct H as [H|[a [Ha Hx]]].
      * apply H, Z.eqb_eq, Hl.
      * rewrite (first_invalid_none _ Hf a Ha) in Hx. discriminate.
  - eexists; reflexivity.
Qed.

(** C2.  Written without separators, with colons, with dashes or with dots,
    each digit in either case, a MAC address of six bytes is canonicalised to
    one and the same string, its lowercase byte pairs joined by colons; and
    [get_clients] and [get_client_addresses] both go on with that string as
    their [client]. *)
Theorem C2_mac_spellings_canonicalise :
  forall (sep : separator) (ws : list written_octet),
    List.length ws = 6%nat ->
    let mac := canonical (map read_octet ws) in
    check_client (VStr (spelling sep ws)) = Ok (Some mac)
    /\ (forall net self get_ip_info w,
          get_clients net self (VStr (spelling sep ws)) get_ip_info w =
          (log (_logger self) DEBUG ("Starting GET_CLIENTS for " ++ mac ++ "...") ;;
           get_clients_loop net self (Some mac) get_ip_info
             (Z.to_nat (retry self)) 0) w)
    /\ (forall net self w,
          get_client_addresses net self (VStr (spelling sep ws)) w =
          (log (_logger self) DEBUG
             ("Starting GET_CLIENT_ADDRESSES for " ++ mac ++ "...") ;;
           get_client_addresses_loop net self (Some mac)
             (Z.to_nat (retry self)) 0) w).
Proof.
  intros sep ws Hlen mac.
  assert (Hc : check_client (VStr (spelling sep ws)) = Ok (Some mac)).
  { apply check_client_accepts.
    - rewrite length_map. exact Hlen.
    - apply normal_form_spelling. }
  split; [exact Hc|]. split; intros.
  - unfold get_clients, bind at 1, lift. rewrite Hc. reflexivity.
  - unfold get_client_addresses, bind at 1, lift. rewrite Hc. reflexivity.
Qed.

Lemma C2_witness :
  check_client (VStr "AA-bb-Cc-dD-eE-0f") = Ok (Some "aa:bb:cc:dd:ee:0f").
Proof.
  exact (proj1 (C2_mac_spellings_canonicalise Dashes
    [((HA, true), (HA, true)); ((HB, false), (HB, false));
     ((HC, true), (HC, false)); ((HD, false), (HD, true));
     ((HE, false), (HE, true)); ((H0, false), (HF, false))] eq_refl)).
Defined.

(** C3, as stated, fails: [AABBCCDDEEFF] without its separators is itself and
    holds [A], which is not a lowercase hex digit, yet both methods accept
    it and go on to the network. *)
Lemma C3_counterexample :
  strip_separators "AABBCCDDEEFF" = "AABBCCDDEEFF"
  /\ In "A"%char (list_ascii_of_string (strip_separators "AABBCCDDEEFF"))
  /\ is_hex_char "A" = false
  /\ fst (get_clients refusing wlc1 (VStr "AABBCCDDEEFF") true fresh)
     = Ok (VList [])
  /\ fst (get_client_addresses refusing wlc1 (VStr "AABBCCDDEEFF") fresh)
     = Ok (VList [])
  /\ List.length
       (calls (snd (get_client_addresses refusing wlc1 (VStr "AABBCCDDEEFF") fresh)))
     = 3%nat.
Proof.
  repeat split; try reflexivity. simpl. auto.
Qed.

(** C3, amended.  A string that, once its separators are stripped and it is
    put in lower case, does not have exactly 12 characters or holds a
    character that is not a lowercase hex digit makes [get_clients] and
    [get_client_addresses] raise [ValueError] at once: no request has been
    sent and nothing has been logged. *)
Theorem C3_invalid_mac_raises :
  forall s,
    len (lower (strip_separators s)) <> 12
    \/ (exists a, In a (list_ascii_of_string (lower (strip_separators s)))
                  /\ is_hex_char a = false) ->
    forall net self get_ip_info w,
    exists msg,
      get_clients net self (VStr s) get_ip_info w = (Raise (ValueError msg), w)
      /\ get_client_addresses net self (VStr s) w = (Raise (ValueError msg), w).
Proof.
  intros s H net self g w.
  destruct (check_client_rejects s H) as [msg Hmsg].
  exists msg. unfold get_clients, get_client_addresses, bind, lift.
  rewrite Hmsg. split; reflexivity.
Qed.

Lemma C3_witness :
  exists msg,
    get_clients one_client wlc1 (VStr "aa:bb:cc:dd:ee:fg") true fresh
    = (Raise (ValueError msg), fresh)
    /\ get_client_addresses one_client wlc1 (VStr "aa:bb:cc:dd:ee:fg") fresh
    = (Raise (ValueError msg), fresh).
Proof.
  apply (C3_invalid_mac_raises "aa:bb:cc:dd:ee:fg").
  right. exists "g"%char. split; [simpl; tauto | reflexivity].
Defined.

(** ** One turn of a retry loop *)

Lemma repeat_shift {A} (x : A) n l :
  (repeat x n ++ x :: l = x :: repeat x n ++ l)%list.
Proof.
  induction n as [|n IH]; simpl; [reflexivity|].
  rewrite IH; reflexivity.
Qed.

Section Turns.

Variable net : transport.
Variable self : IosXeWlc.

Lemma test_try_fails i w :
  let req := get_request self (test_url self) in
  outcome_fails (net (req :: calls w)) = true ->
  exists w', test_try net self i w = (Ok None, w') /\ warned_after self req w w'.
Proof.
  intros req H. unfold test_try. unfold_monad. fold req.
  destruct (net (req :: calls w)) as [r|e]; simpl in *.
  - apply negb_true_iff in H. rewrite H.
    eexists; split; [reflexivity|]. repeat split; simpl; eauto.
  - eexists; split; [reflexivity|]. repeat split; simpl; eauto.
Qed.

Lemma get_client_addresses_try_fails client i w :
  let req := get_request self (addresses_url self client) in
  outcome_fails (net (req :: calls w)) = true ->
  exists w',
    get_client_addresses_try net self client i w = (Ok None, w')
    /\ warned_after self req w w'.
Proof.
  intros req H. unfold get_client_addresses_try. unfold_monad. fold req.
  destruct (net (req :: calls w)) as [r|e]; simpl in *.
  - apply negb_true_iff in H. rewrite H.
    eexists; split; [reflexivity|]. repeat split; simpl; eauto.
  - eexists; split; [reflexivity|]. repeat split; simpl; eauto.
Qed.

Lemma get_clients_try_fails client get_ip_info i w :
  let req := get_request self (clients_url self client) in
  outcome_fails (net (req :: calls w)) = true ->
  exists w',
    get_clients_try net self client get_ip_info i w = (Ok None, w')
    /\ warned_after self req w w'.
Proof.
  intros req H. unfold get_clients_try. unfold_monad. fold req.
  destruct (net (req :: calls w)) as [r|e]; simpl in *.
  - apply negb_true_iff in H. rewrite H.
    eexists; split; [reflexivity|]. repeat split; simpl; eauto.
  - eexists; split; [reflexivity|]. repeat split; simpl; eauto.
Qed.

Lemma test_try_succeeds i w r :
  let req := get_request self (test_url self) in
  net (req :: calls w) = Responds r ->
  status_code r = 200 ->
  exists w', test_try net self i w = (Ok (Some true), w') /\ sent_once req w w'.
Proof.
  intros req H Hs. unfold test_try. unfold_monad. fold req.
  rewrite H, Hs. simpl. eexists; split; reflexivity.
Qed.

Lemma get_client_addresses_try_succeeds client i w r l :
  let req := get_request self (addresses_url self client) in
  net (req :: calls w) = Responds r ->
  status_code r = 200 ->
  envelope addresses_key r = Some l ->
  exists w',
    get_client_addresses_try net self client i w = (Ok (Some (VList l)), w')
    /\ sent_once req w w'.
Proof.
  intros req H Hs He. unfold get_client_addresses_try. unfold_monad. fold req.
  rewrite H, Hs. simpl. unfold envelope in He.
  destruct (json r) as [[]|]; try discriminate He. simpl.
  destruct (dict_get addresses_key fields) as [[]|]; try discriminate He;
    injection He as <-; simpl; eexists; split; reflexivity.
Qed.

(** With the lookups off, or with no record to look up. *)
Lemma get_clients_try_succeeds client get_ip_info i w r l :
  let req := get_request self (clients_url self client) in
  net (req :: calls w) = Responds r ->
  status_code r = 200 ->
  envelope clients_key r = Some l ->
  get_ip_info = false \/ l = [] ->
  exists w',
    get_clients_try net self client get_ip_info i w = (Ok (Some (VList l)), w')
    /\ sent_once req w w'.
Proof.
  intros req H Hs He Hg. unfold get_clients_try. unfold_monad. fold req.
  rewrite H, Hs. simpl. unfold envelope in He.
  destruct (json r) as [[]|]; try discriminate He. simpl.
  unfold get_ip_info_block.
  destruct (dict_get clients_key fields) as [[]|]; try discriminate He;
    injection He as <-; simpl;
    destruct Hg as [->| Hg]; try (eexists; split; reflexivity);
    try rewrite Hg; destruct get_ip_info; eexists; split; reflexivity.
Qed.

End Turns.

(** ** The loop *)

Section Loop.

Variable net : transport.
Variable self : IosXeWlc.
Variable A : Type.
Variable req : request.
Variable body : Z -> M (option A).
Variable orelse : M A.

Hypothesis body_fails :
  forall i w,
    outcome_fails (net (req :: calls w)) = true ->
    exists w', body i w = (Ok None, w') /\ warned_after self req w w'.

(** [n] failed attempts in a row: the loop has sent [req] [n] times and is
    where it would be with [n] turns fewer to go. *)
Lemma for_range_skips n m i w :
  (forall j, (j < n)%nat -> outcome_fails (attempt_outcome net req w j) = true) ->
  exists w',
    for_range (n + m) i body orelse w
    = for_range m (i + Z.of_nat n) body orelse w'
    /\ calls w' = (repeat req n ++ calls w)%list
    /\ lookups_started w' = lookups_started w.
Proof.
  revert i w. induction n as [|n IH]; intros i w H.
  - exists w. simpl. rewrite Z.add_0_r. repeat split; reflexivity.
  - destruct (body_fails i w) as [w1 [Hb [Hc [_ Hl]]]].
    { apply (H 0%nat). lia. }
    destruct (IH (i + 1) w1) as [w' [Hf [Hc' Hl']]].
    { intros j Hj. unfold attempt_outcome. rewrite Hc.
      rewrite repeat_shift. apply (H (S j)). lia. }
    exists w'. split; [|split].
    + change (S n + m)%nat with (S (n + m)). simpl for_range.
      unfold bind at 1. rewrite Hb, Hf. f_equal. lia.
    + rewrite Hc', Hc. apply repeat_shift.
    + rewrite Hl', Hl. reflexivity.
Qed.

(** All [n] attempts fail: the loop falls through to what follows it. *)
Lemma for_range_exhausted n w :
  (forall j, (j < n)%nat -> outcome_fails (attempt_outcome net req w j) = true) ->
  exists w',
    for_range n 0 body orelse w = orelse w'
    /\ calls w' = (repeat req n ++ calls w)%list.
Proof.
  intros H. destruct (for_range_skips n 0 0 w H) as [w' [Hf [Hc _]]].
  rewrite Nat.add_0_r in Hf. exists w'. split; [exact Hf | exact Hc].
Qed.

(** [k] failed attempts, then a turn that returns [a]: the loop returns [a]
    having sent [req] [k + 1] times. *)
Lemma for_range_returns n k w a :
  (k < n)%nat ->
  (forall j, (j < k)%nat -> outcome_fails (attempt_outcome net req w j) = true) ->
  (forall i w1,
     calls w1 = (repeat req k ++ calls w)%list ->
     exists w', body i w1 = (Ok (Some a), w') /\ sent_once req w1 w') ->
  exists w',
    for_range n 0 body orelse w = (Ok a, w')
    /\ calls w' = (repeat req (S k) ++ calls w)%list.
Proof.
  intros Hk Hfail Hok.
  destruct (for_range_skips k (n - k) 0 w Hfail) as [w1 [Hf [Hc _]]].
  replace (k + (n - k))%nat with n in Hf by lia.
  destruct (n - k)%nat as [|m] eqn:Hm; [lia|].
  rewrite Z.add_0_l in Hf.
  destruct (Hok (Z.of_nat k) w1 Hc) as [w' [Hb Hs]].
  exists w'. split.
  - rewrite Hf. simpl for_range. unfold bind at 1. rewrite Hb. reflexivity.
  - unfold sent_once in Hs. rewrite Hs, Hc. reflexivity.
Qed.

End Loop.

(** ** The three operations, from the loop's lemmas *)

Section Exhaustion.

Variable net : transport.
Variable self : IosXeWlc.
Variable A : Type.
Variable req : request.
Variable body : Z -> M (option A).

Hypothesis body_fails :
  forall i w,
    outcome_fails (net (req :: calls w)) = true ->
    exists w', body i w = (Ok None, w') /\ warned_after self req w w'.

(** The shape all three methods have after the check of [client]: a debug
    message, the loop, an error message and the negative result. *)
Lemma method_exhausted lg start name (a : A) w :
  (forall j, (j < Z.to_nat (retry self))%nat ->
             outcome_fails (attempt_outcome net req w j) = true) ->
  exists w',
    (log lg DEBUG start ;;
     for_range (Z.to_nat (retry self)) 0 body
       (log lg ERROR (failed_message name self) ;; ret a)) w
    = (Ok a, w')
    /\ calls w' = (repeat req (Z.to_nat (retry self)) ++ calls w)%list
    /\ hd_error (logs w')
       = Some (mk_entry (logger_name lg) ERROR (failed_message name self)).
Proof.
  intros H. unfold bind at 1. unfold log at 1.
  destruct (for_range_exhausted net self A req body
              (log lg ERROR (failed_message name self) ;; ret a) body_fails
              (Z.to_nat (retry self))
              (mk_world (calls w)
                 (mk_entry (logger_name lg) DEBUG start :: logs w)) H)
    as [w1 [Hf Hc]].
  rewrite Hf. unfold_monad. simpl.
  eexists. split; [reflexivity|]. simpl. split; [exact Hc | reflexivity].
Qed.

Lemma method_returns lg start (orelse : M A) (a : A) k w :
  (k < Z.to_nat (retry self))%nat ->
  (forall j, (j < k)%nat -> outcome_fails (attempt_outcome net req w j) = true) ->
  (forall i w1,
     calls w1 = (repeat req k ++ calls w)%list ->
     exists w', body i w1 = (Ok (Some a), w') /\ sent_once req w1 w') ->
  exists w',
    (log lg DEBUG start ;; for_range (Z.to_nat (retry self)) 0 body orelse) w
    = (Ok a, w')
    /\ calls w' = (repeat req (S k) ++ calls w)%list.
Proof.
  intros Hk Hfail Hok. unfold bind at 1. unfold log at 1.
  apply (for_range_returns net self A req body orelse body_fails
           (Z.to_nat (retry self)) k
           (mk_world (calls w) (mk_entry (logger_name lg) DEBUG start :: logs w)));
    assumption.
Qed.

End Exhaustion.

Lemma own_request_clients self client g req :
  own_request self (GetClients client g) = Ok req ->
  exists c, check_client client = Ok c /\ req = get_request self (clients_url self c).
Proof.
  simpl. destruct (check_client client) as [c|e]; [|discriminate].
  intros H; injection H as <-. eauto.
Qed.

Lemma own_request_addresses self client req :
  own_request self (GetClientAddresses client) = Ok req ->
  exists c, check_client client = Ok c /\ req = get_request self (addresses_url self c).
Proof.
  simpl. destruct (check_client client) as [c|e]; [|discriminate].
  intros H; injection H as <-. eauto.
Qed.

(** Every operation whose attempts all fail: the negative result, [retry]
    requests, and the error message as the last thing logged. *)
Lemma perform_exhausted net self op req w :
  own_request self op = Ok req ->
  (forall j, (j < Z.to_nat (retry self))%nat ->
             outcome_fails (attempt_outcome net req w j) = true) ->
  exists w',
    perform net self op w = (Ok (negative_result op), w')
    /\ calls w' = (repeat req (Z.to_nat (retry self)) ++ calls w)%list
    /\ hd_error (logs w')
       = Some (mk_entry (logger_name (_logger self)) ERROR
                 (failed_message (op_name op) self)).
Proof.
  intros Hreq Hfail. destruct op as [|client g|client].
  - injection Hreq as <-.
    destruct (method_exhausted net self bool (get_request self (test_url self))
                (test_try net self)
                (test_try_fails net self) (_logger self) "Starting test..."
                "Test" false w Hfail) as [w' [Hr [Hc Hl]]].
    exists w'. split; [|split; assumption].
    unfold perform, test. unfold bind at 1. rewrite Hr. reflexivity.
  - destruct (own_request_clients _ _ _ _ Hreq) as [c [Hc ->]].
    unfold perform, get_clients, get_clients_loop.
    unfold bind at 1. unfold lift. rewrite Hc.
    apply (method_exhausted net self value
             (get_request self (clients_url self c)) _
             (get_clients_try_fails net self c g)); assumption.
  - destruct (own_request_addresses _ _ _ Hreq) as [c [Hc ->]].
    unfold perform, get_client_addresses, get_client_addresses_loop.
    unfold bind at 1. unfold lift. rewrite Hc.
    apply (method_exhausted net self value
             (get_request self (addresses_url self c)) _
             (get_client_addresses_try_fails net self c)); assumption.
Qed.

(** C1.  Whichever the operation, when each of its [retry] attempts meets an
    exception or a status other than 200, it has sent its request exactly
    [retry] times, raises nothing, and returns [False] ([test]) or the empty
    list. *)
Theorem C1_retry_exhaustion :
  forall net self op req w,
    0 <= retry self ->
    own_request self op = Ok req ->
    (forall j, (j < Z.to_nat (retry self))%nat ->
               outcome_fails (attempt_outcome net req w j) = true) ->
    exists w',
      perform net self op w = (Ok (negative_result op), w')
      /\ calls w' = (repeat req (Z.to_nat (retry self)) ++ calls w)%list
      /\ Z.of_nat (List.length (calls w'))
         = Z.of_nat (List.length (calls w)) + retry self.
Proof.
  intros net self op req w Hr Hreq Hfail.
  destruct (perform_exhausted net self op req w Hreq Hfail) as [w' [Hp [Hc _]]].
  exists w'. split; [exact Hp|]. split; [exact Hc|].
  rewrite Hc, length_app, repeat_length. lia.
Qed.

Lemma C1_witness :
  exists w',
    perform refusing wlc1 (GetClients (VStr "AA:BB:CC:DD:EE:FF") true) fresh
    = (Ok (VList []), w')
    /\ calls w'
       = (repeat (get_request wlc1 (clients_url wlc1 (Some "aa:bb:cc:dd:ee:ff"))) 3
          ++ [])%list
    /\ Z.of_nat (List.length (calls w')) = 0 + 3.
Proof.
  apply (C1_retry_exhaustion refusing wlc1
           (GetClients (VStr "AA:BB:CC:DD:EE:FF") true) _ fresh).
  - simpl; lia.
  - reflexivity.
  - intros j _. reflexivity.
Defined.

(** C8.  On exhaustion the loop has made exactly [retry] attempts, not
    [retry + 1], and the error message that follows says
    [Tried <retry + 1> times]. *)
Theorem C8_attempts_and_reported_count :
  forall net self op req w,
    0 <= retry self ->
    own_request self op = Ok req ->
    (forall j, (j < Z.to_nat (retry self))%nat ->
               outcome_fails (attempt_outcome net req w j) = true) ->
    let w' := snd (perform net self op w) in
    Z.of_nat (List.length (calls w')) - Z.of_nat (List.length (calls w))
    = retry self
    /\ Z.of_nat (List.length (calls w')) - Z.of_nat (List.length (calls w))
       <> retry self + 1
    /\ hd_error (logs w')
       = Some (mk_entry (logger_name (_logger self)) ERROR
                 (op_name op ++ " Failed! Tried " ++ str_of_int (retry self + 1)
                  ++ " times. Timeout is " ++ str_of_int (timeout self)
                  ++ ". Check credentials and host and try again.")).
Proof.
  intros net self op req w Hr Hreq Hfail.
  destruct (perform_exhausted net self op req w Hreq Hfail) as [w' [Hp [Hc Hl]]].
  rewrite Hp. simpl. rewrite Hc, length_app, repeat_length.
  split; [lia|]. split; [lia|]. exact Hl.
Qed.

Lemma C8_witness :
  let w' := snd (perform refusing wlc1 Test fresh) in
  Z.of_nat (List.length (calls w')) - 0 = 3
  /\ Z.of_nat (List.length (calls w')) - 0 <> 3 + 1
  /\ hd_error (logs w')
     = Some (mk_entry "IOS-XE-WLC(wlc1)" ERROR
               "Test Failed! Tried 4 times. Timeout is 5. Check credentials and host and try again.").
Proof.
  apply (C8_attempts_and_reported_count refusing wlc1 Test
           (get_request wlc1 (test_url wlc1)) fresh).
  - simpl; lia.
  - reflexivity.
  - intros j _. reflexivity.
Defined.

(** [k] failed attempts, then a 200 with the body the operation expects, and
    no record to look up: the operation returns what the response carries,
    having sent its request [k + 1] times. *)
Lemma perform_returns net self op req w k r v :
  own_request self op = Ok req ->
  (k < Z.to_nat (retry self))%nat ->
  (forall j, (j < k)%nat -> outcome_fails (attempt_outcome net req w j) = true) ->
  attempt_outcome net req w k = Responds r ->
  status_code r = 200 ->
  success_result op r = Some v ->
  without_lookups op = true \/ v = VList [] ->
  exists w',
    perform net self op w = (Ok v, w')
    /\ calls w' = (repeat req (S k) ++ calls w)%list.
Proof.
  intros Hreq Hk Hfail Hr Hs Hv Hl. destruct op as [|client g|client].
  - injection Hreq as <-. injection Hv as <-.
    destruct (method_returns net self bool (get_request self (test_url self))
                (test_try net self) (test_try_fails net self) (_logger self)
                "Starting test..."
                (log (_logger self) ERROR (failed_message "Test" self) ;; ret false)
                true k w Hk Hfail) as [w' [Hp Hc]].
    { intros i w1 Hw1. apply test_try_succeeds with (r := r); [|exact Hs].
      rewrite Hw1. exact Hr. }
    exists w'. split; [|exact Hc].
    unfold perform, test. unfold bind at 1. rewrite Hp. reflexivity.
  - destruct (own_request_clients _ _ _ _ Hreq) as [c [Hc ->]].
    simpl in Hv. destruct (envelope clients_key r) as [l|] eqn:He; [|discriminate].
    injection Hv as <-.
    unfold perform, get_clients, get_clients_loop.
    unfold bind at 1. unfold lift. rewrite Hc.
    apply (method_returns net self value (get_request self (clients_url self c)) _
             (get_clients_try_fails net self c g)); try assumption.
    intros i w1 Hw1.
    apply get_clients_try_succeeds with (r := r); try assumption.
    + rewrite Hw1. exact Hr.
    + destruct Hl as [Hl|Hl].
      * left. simpl in Hl. destruct g; [discriminate | reflexivity].
      * right. injection Hl as ->. reflexivity.
  - destruct (own_request_addresses _ _ _ Hreq) as [c [Hc ->]].
    simpl in Hv. destruct (envelope addresses_key r) as [l|] eqn:He; [|discriminate].
    injection Hv as <-.
    unfold perform, get_client_addresses, get_client_addresses_loop.
    unfold bind at 1. unfold lift. rewrite Hc.
    apply (method_returns net self value (get_request self (addresses_url self c)) _
             (get_client_addresses_try_fails net self c)); try assumption.
    intros i w1 Hw1.
    apply get_client_addresses_try_succeeds with (r := r); try assumption.
    rewrite Hw1. exact Hr.
Qed.

(** C4, as stated, fails twice over.  With the lookups on (the default),
    [get_clients] whose first attempt gets a 200 and one record sends two
    requests, not one: the second is the record's address lookup.  And a body
    that parses to something other than an object makes the attempt fail: on
    [[]] [get_client_addresses] goes through all three attempts. *)
Lemma C4_counterexample :
  (let req := get_request wlc1 (clients_url wlc1 None) in
   own_request wlc1 (GetClients VNone true) = Ok req
   /\ (exists r body,
         attempt_outcome one_client req fresh 0 = Responds r
         /\ status_code r = 200 /\ json r = Ok body)
   /\ List.length (calls (snd (perform one_client wlc1 (GetClients VNone true) fresh)))
      = 2%nat)
  /\ (let req := get_request wlc1 (addresses_url wlc1 None) in
      own_request wlc1 (GetClientAddresses VNone) = Ok req
      /\ (exists r body,
            attempt_outcome bare_array req fresh 0 = Responds r
            /\ status_code r = 200 /\ json r = Ok body)
      /\ List.length
           (calls (snd (perform bare_array wlc1 (GetClientAddresses VNone) fresh)))
         = 3%nat).
Proof.
  split; (split; [reflexivity|]); (split; [|reflexivity]);
    do 2 eexists; repeat split.
Qed.

(** C4, amended.  For [test], [get_client_addresses], and [get_clients]
    called with the lookups off: when the first [k - 1] attempts fail at the
    transport and attempt [k] gets a 200 (for the two listings: with a body
    that is an object in which the envelope key is absent or holds an array),
    the operation returns [True], or that array, and has sent exactly [k]
    requests. *)
Theorem C4_returns_at_first_success :
  forall net self op req w k r v,
    without_lookups op = true ->
    own_request self op = Ok req ->
    (1 <= k)%nat ->
    Z.of_nat k <= retry self ->
    (forall j, (j < k - 1)%nat ->
               outcome_fails (attempt_outcome net req w j) = true) ->
    attempt_outcome net req w (k - 1) = Responds r ->
    status_code r = 200 ->
    success_result op r = Some v ->
    exists w',
      perform net self op w = (Ok v, w')
      /\ calls w' = (repeat req k ++ calls w)%list
      /\ List.length (calls w') = (k + List.length (calls w))%nat.
Proof.
  intros net self op req w k r v Hop Hreq Hk1 Hk Hfail Hr Hs Hv.
  destruct (perform_returns net self op req w (k - 1) r v) as [w' [Hp Hc]];
    auto; try lia.
  replace (S (k - 1)) with k in Hc by lia.
  exists w'. split; [exact Hp|]. split; [exact Hc|].
  rewrite Hc, length_app, repeat_length. reflexivity.
Qed.

Lemma C4_witness :
  exists w',
    perform third_time_lucky wlc1 Test fresh = (Ok (VBool true), w')
    /\ calls w' = (repeat (get_request wlc1 (test_url wlc1)) 3 ++ [])%list
    /\ List.length (calls w') = (3 + 0)%nat.
Proof.
  apply (C4_returns_at_first_success third_time_lucky wlc1 Test
           (get_request wlc1 (test_url wlc1)) fresh 3
           (mk_response 200 (Ok (VDict [])) "0.01") (VBool true)).
  - reflexivity.
  - reflexivity.
  - lia.
  - simpl; lia.
  - intros j Hj. destruct j as [|[|j]]; [reflexivity | reflexivity | simpl in Hj; lia].
  - reflexivity.
  - reflexivity.
  - reflexivity.
Defined.

(** A 200 whose body parses to something that is not an object is a failed
    attempt for the two listings: [.get] raises [AttributeError], which the
    loop catches. *)
Lemma non_object_body_is_retried net self client i w r v :
  net (get_request self (addresses_url self client) :: calls w) = Responds r ->
  status_code r = 200 ->
  json r = Ok v ->
  (forall d, v <> VDict d) ->
  exists w',
    get_client_addresses_try net self client i w = (Ok None, w')
    /\ warned_after self (get_request self (addresses_url self client)) w w'.
Proof.
  intros H Hs Hj Hv. unfold get_client_addresses_try. unfold_monad.
  rewrite H, Hs, Hj. simpl.
  destruct v; try (eexists; split; [reflexivity|]; repeat split; simpl; eauto).
  exfalso. eapply Hv. reflexivity.
Qed.

(** C5.  A 200 whose body is a JSON object without the envelope key makes a
    listing operation return the empty list then and there: no exception, no
    further attempt, with the lookups on or off. *)
Theorem C5_missing_envelope_key :
  forall net self op key req w k r d,
    envelope_key op = Some key ->
    own_request self op = Ok req ->
    (k < Z.to_nat (retry self))%nat ->
    (forall j, (j < k)%nat -> outcome_fails (attempt_outcome net req w j) = true) ->
    attempt_outcome net req w k = Responds r ->
    status_code r = 200 ->
    json r = Ok (VDict d) ->
    dict_get key d = None ->
    exists w',
      perform net self op w = (Ok (VList []), w')
      /\ calls w' = (repeat req (S k) ++ calls w)%list.
Proof.
  intros net self op key req w k r d Hkey Hreq Hk Hfail Hr Hs Hj Hd.
  apply perform_returns with (r := r); auto.
  destruct op; simpl in *; try discriminate Hkey;
    injection Hkey as <-; unfold envelope; rewrite Hj, Hd; reflexivity.
Qed.

Lemma C5_witness :
  exists w',
    perform third_time_lucky wlc1 (GetClients VNone true) fresh = (Ok (VList []), w')
    /\ calls w'
       = (repeat (get_request wlc1 (clients_url wlc1 None)) 3 ++ [])%list.
Proof.
  apply (C5_missing_envelope_key third_time_lucky wlc1 (GetClients VNone true)
           clients_key (get_request wlc1 (clients_url wlc1 None)) fresh 2
           (mk_response 200 (Ok (VDict [])) "0.01") []).
  - reflexivity.
  - reflexivity.
  - simpl; lia.
  - intros j Hj. destruct j as [|[|j]]; [reflexivity | reflexivity | lia].
  - reflexivity.
  - reflexivity.
  - reflexivity.
  - reflexivity.
Defined.

(** ** Which requests a method sends *)

Section Sends.

Variable P : request -> Prop.

Lemma extends_refl w : extends P w w.
Proof. exists []. split; [reflexivity | constructor]. Qed.

Lemma extends_trans w1 w2 w3 :
  extends P w1 w2 -> extends P w2 w3 -> extends P w1 w3.
Proof.
  intros [n1 [H1 F1]] [n2 [H2 F2]]. exists (n2 ++ n1)%list. split.
  - rewrite H2, H1. apply app_assoc.
  - apply Forall_app. split; assumption.
Qed.

Lemma sends_ret {A} (a : A) : sends P (ret a).
Proof. intros w. apply extends_refl. Qed.

Lemma sends_lift {A} (r : result A) : sends P (lift r).
Proof. intros w. apply extends_refl. Qed.

Lemma sends_log lg lvl msg : sends P (log lg lvl msg).
Proof. intros w. exists []. split; [reflexivity | constructor]. Qed.

Lemma sends_requests_get net r : P r -> sends P (requests_get net r).
Proof.
  intros Hr w. exists [r]. unfold requests_get.
  destruct (net (r :: calls w)); simpl; split; auto.
Qed.

Lemma sends_bind {A B} (m : M A) (k : A -> M B) :
  sends P m -> (forall a, sends P (k a)) -> sends P (bind m k).
Proof.
  intros Hm Hk w. unfold bind. specialize (Hm w).
  destruct (m w) as [[a|e] w1]; simpl in *; [|exact Hm].
  eapply extends_trans; [exact Hm | apply Hk].
Qed.

Lemma sends_catch {A} (m : M A) (h : exn -> M A) :
  sends P m -> (forall e, sends P (h e)) -> sends P (catch m h).
Proof.
  intros Hm Hh w. unfold catch. specialize (Hm w).
  destruct (m w) as [[a|e] w1]; simpl in *; [exact Hm|].
  eapply extends_trans; [exact Hm | apply Hh].
Qed.

Lemma sends_for_range {A} n i (body : Z -> M (option A)) orelse :
  (forall i, sends P (body i)) -> sends P orelse ->
  sends P (for_range n i body orelse).
Proof.
  intros Hb Ho. revert i. induction n as [|n IH]; intros i; simpl; [exact Ho|].
  apply sends_bind; [apply Hb|]. intros [a|]; [apply sends_ret | apply IH].
Qed.

End Sends.

Ltac split_on_status :=
  match goal with
  | |- context [status_code ?r =? 200] => destruct (status_code r =? 200)
  end.

Ltac sends_step :=
  first [ apply sends_ret | apply sends_lift | apply sends_log
        | apply sends_for_range | apply sends_catch | apply sends_bind ].

Section SendsAs.

Variable net : transport.
Variable self : IosXeWlc.
Variable P : request -> Prop.
Hypothesis P_own : forall u, P (get_request self u).

Lemma sends_test : sends P (test net self).
Proof.
  unfold test, test_try. repeat (sends_step; intros).
  - apply sends_requests_get, P_own.
  - split_on_status; repeat (sends_step; intros).
Qed.

Lemma sends_get_client_addresses client :
  sends P (get_client_addresses net self client).
Proof.
  unfold get_client_addresses, get_client_addresses_loop,
    get_client_addresses_try.
  repeat (sends_step; intros).
  - apply sends_requests_get, P_own.
  - split_on_status; repeat (sends_step; intros).
Qed.

Lemma sends_add_ip_info items : sends P (add_ip_info net self items).
Proof.
  induction items as [|client_obj rest IH]; simpl; [apply sends_ret|].
  apply sends_bind; [apply sends_lift|]. intros mac.
  apply sends_bind; [apply sends_get_client_addresses|]. intros ip_addr.
  apply sends_bind; [apply sends_lift|]. intros client_obj'.
  apply sends_bind; [exact IH|]. intros rest'. apply sends_ret.
Qed.

Lemma sends_get_clients client get_ip_info :
  sends P (get_clients net self client get_ip_info).
Proof.
  unfold get_clients, get_clients_loop, get_clients_try.
  repeat (sends_step; intros).
  - apply sends_requests_get, P_own.
  - split_on_status; repeat (sends_step; intros).
    unfold get_ip_info_block. destruct get_ip_info; [|apply sends_ret].
    apply sends_bind; [apply sends_lift|]. intros items.
    apply sends_bind; [apply sends_add_ip_info|]. intros. apply sends_ret.
Qed.

Lemma sends_perform op : sends P (perform net self op).
Proof.
  destruct op; simpl.
  - apply sends_bind; [apply sends_test|]. intros; apply sends_ret.
  - apply sends_get_clients.
  - apply sends_get_client_addresses.
Qed.

End SendsAs.

Lemma sends_session_of_calls net self P steps :
  (forall u, P (get_request self u)) ->
  Forall (fun s => exists op, s = Call op) steps ->
  forall w, extends P w (snd (session net self steps w)).
Proof.
  intros HP Hsteps. induction Hsteps as [|s steps [op ->] _ IH]; intros w; simpl.
  - apply extends_refl.
  - pose proof (sends_perform net self P HP op w) as H1.
    destruct (perform net self op w) as [r w1]. simpl in H1.
    specialize (IH w1). destruct (session net self steps w1) as [rs w2].
    simpl in *. eapply extends_trans; eassumption.
Qed.

(** C7.  [update_creds] changes [username] and [password] and nothing else of
    the instance, sends nothing, and from then on every request of every
    operation carries the new pair, hence not the old one when the two
    differ. *)
Theorem C7_update_creds :
  forall net self u p w,
  exists self' w1,
    update_creds self u p w = (Ok self', w1)
    /\ username self' = u /\ __password self' = p
    /\ host self' = host self /\ ca_cert self' = ca_cert self
    /\ timeout self' = timeout self /\ retry self' = retry self
    /\ _logger self' = _logger self
    /\ calls w1 = calls w
    /\ (forall op w2,
          extends (fun r => auth r = (u, p)) w2 (snd (perform net self' op w2)))
    /\ (forall steps w2,
          Forall (fun s => exists op, s = Call op) steps ->
          extends (fun r => auth r = (u, p)) w2 (snd (session net self' steps w2)))
    /\ ((u, p) <> (username self, __password self) ->
        forall op w2,
          extends (fun r => auth r <> (username self, __password self)) w2
            (snd (perform net self' op w2))).
Proof.
  intros net self u p w. do 2 eexists. split; [reflexivity|].
  repeat (split; [reflexivity|]). split; [|split].
  - intros op w2. apply sends_perform. intros url0. reflexivity.
  - intros steps w2 Hs. apply sends_session_of_calls; [|exact Hs].
    intros url0. reflexivity.
  - intros Hne op w2. apply sends_perform. intros url0. simpl.
    intros H. apply Hne. exact H.
Qed.

Lemma C7_witness :
  extends (fun r => auth r <> ("admin", "secret")) fresh
    (snd (perform one_client
            (mk_IosXeWlc "wlc1" "operator" "hunter2" None 5 3 (_logger wlc1))
            (GetClients VNone true) fresh)).
Proof.
  destruct (C7_update_creds one_client wlc1 "operator" "hunter2" fresh)
    as [self' [w1 [Hu H]]].
  injection Hu as <- _.
  apply (proj2 (proj2 (proj2 (proj2 (proj2 (proj2 (proj2 (proj2 (proj2 (proj2 H)))))))))).
  discriminate.
Defined.

(** ** The password and the logger *)

Section Blind.

Variable net : transport.
Hypothesis net_blind : password_blind net.

Lemma blind_ret {A} (a : A) : blind_to_passwords (ret a) (ret a).
Proof. intros w. reflexivity. Qed.

Lemma blind_lift {A} (r : result A) : blind_to_passwords (lift r) (lift r).
Proof. intros w. reflexivity. Qed.

Lemma blind_log lg lvl msg :
  blind_to_passwords (log lg lvl msg) (log lg lvl msg).
Proof. intros w. reflexivity. Qed.

Lemma blind_requests_get r :
  blind_to_passwords (requests_get net r) (requests_get net (blank_request r)).
Proof.
  intros w. unfold requests_get.
  change (blank_request r :: calls (blank_world w))
    with (map blank_request (r :: calls w)).
  rewrite net_blind. destruct (net (r :: calls w)); reflexivity.
Qed.

Lemma blind_bind {A B} (m m' : M A) (k k' : A -> M B) :
  blind_to_passwords m m' ->
  (forall a, blind_to_passwords (k a) (k' a)) ->
  blind_to_passwords (bind m k) (bind m' k').
Proof.
  intros Hm Hk w. unfold bind. rewrite Hm.
  destruct (m w) as [[a|e] w1]; simpl; [apply Hk | reflexivity].
Qed.

Lemma blind_catch {A} (m m' : M A) (h h' : exn -> M A) :
  blind_to_passwords m m' ->
  (forall e, blind_to_passwords (h e) (h' e)) ->
  blind_to_passwords (catch m h) (catch m' h').
Proof.
  intros Hm Hh w. unfold catch. rewrite Hm.
  destruct (m w) as [[a|e] w1]; simpl; [reflexivity | apply Hh].
Qed.

Lemma blind_for_range {A} n i (body body' : Z -> M (option A)) orelse orelse' :
  (forall i, blind_to_passwords (body i) (body' i)) ->
  blind_to_passwords orelse orelse' ->
  blind_to_passwords (for_range n i body orelse) (for_range n i body' orelse').
Proof.
  intros Hb Ho. revert i. induction n as [|n IH]; intros i; simpl; [exact Ho|].
  apply blind_bind; [apply Hb|]. intros [a|]; [apply blind_ret | apply IH].
Qed.

Ltac blind_step :=
  first [ apply blind_ret | apply blind_lift | apply blind_log
        | apply blind_requests_get
        | apply blind_for_range | apply blind_catch | apply blind_bind ].

Variable self : IosXeWlc.

Lemma blind_test :
  blind_to_passwords (test net self) (test net (blank_instance self)).
Proof.
  unfold test, test_try. repeat (blind_step; intros).
  split_on_status; repeat (blind_step; intros).
Qed.

Lemma blind_get_client_addresses client :
  blind_to_passwords (get_client_addresses net self client)
    (get_client_addresses net (blank_instance self) client).
Proof.
  unfold get_client_addresses, get_client_addresses_loop,
    get_client_addresses_try.
  repeat (blind_step; intros).
  split_on_status; repeat (blind_step; intros).
Qed.

Lemma blind_add_ip_info items :
  blind_to_passwords (add_ip_info net self items)
    (add_ip_info net (blank_instance self) items).
Proof.
  induction items as [|client_obj rest IH]; simpl; [apply blind_ret|].
  apply blind_bind; [apply blind_lift|]. intros mac.
  apply blind_bind; [apply blind_get_client_addresses|]. intros ip_addr.
  apply blind_bind; [apply blind_lift|]. intros client_obj'.
  apply blind_bind; [exact IH|]. intros rest'. apply blind_ret.
Qed.

Lemma blind_get_clients client get_ip_info :
  blind_to_passwords (get_clients net self client get_ip_info)
    (get_clients net (blank_instance self) client get_ip_info).
Proof.
  unfold get_clients, get_clients_loop, get_clients_try.
  repeat (blind_step; intros).
  split_on_status; repeat (blind_step; intros).
  unfold get_ip_info_block. destruct get_ip_info; [|apply blind_ret].
  apply blind_bind; [apply blind_lift|]. intros items.
  apply blind_bind; [apply blind_add_ip_info|]. intros. apply blind_ret.
Qed.

Lemma blind_perform op :
  blind_to_passwords (perform net self op) (perform net (blank_instance self) op).
Proof.
  destruct op; simpl.
  - apply blind_bind; [apply blind_test|]. intros; apply blind_ret.
  - apply blind_get_clients.
  - apply blind_get_client_addresses.
Qed.

End Blind.

Lemma session_update net self u p steps w :
  session net self (UpdateCreds u p :: steps) w
  = let self' := mk_IosXeWlc (host self) u p (ca_cert self) (timeout self)
                   (retry self) (_logger self) in
    let w1 := mk_world (calls w)
                (mk_entry (logger_name (_logger self)) DEBUG
                   ("Updating credentials. Username: " ++ u) :: logs w) in
    (Ok VNone :: fst (session net self' steps w1),
     snd (session net self' steps w1)).
Proof.
  cbn [session]. unfold update_creds, bind, log, ret.
  destruct (session net _ steps _) as [rs w2]. reflexivity.
Qed.

Lemma session_call net self op steps w :
  session net self (Call op :: steps) w
  = (fst (perform net self op w)
     :: fst (session net self steps (snd (perform net self op w))),
     snd (session net self steps (snd (perform net self op w)))).
Proof.
  cbn [session]. destruct (perform net self op w) as [r w1]. cbn [fst snd].
  destruct (session net self steps w1) as [rs w2]. reflexivity.
Qed.

(** A whole session run without the passwords returns the same results and
    logs the same messages. *)
Lemma blind_session net :
  password_blind net ->
  forall steps self w,
    session net (blank_instance self) (map blank_step steps) (blank_world w)
    = (fst (session net self steps w), blank_world (snd (session net self steps w))).
Proof.
  intros Hnet. induction steps as [|[u p|op] steps IH]; intros self w.
  - reflexivity.
  - cbn [map blank_step]. rewrite !session_update. cbv zeta.
    set (self' := mk_IosXeWlc (host self) u p (ca_cert self) (timeout self)
                    (retry self) (_logger self)).
    set (w1 := mk_world (calls w)
                 (mk_entry (logger_name (_logger self)) DEBUG
                    ("Updating credentials. Username: " ++ u) :: logs w)).
    change (mk_IosXeWlc (host (blank_instance self)) u ""
              (ca_cert (blank_instance self)) (timeout (blank_instance self))
              (retry (blank_instance self)) (_logger (blank_instance self)))
      with (blank_instance self').
    change (mk_world (calls (blank_world w))
              (mk_entry (logger_name (_logger (blank_instance self))) DEBUG
                 ("Updating credentials. Username: " ++ u)
               :: logs (blank_world w)))
      with (blank_world w1).
    rewrite IH. reflexivity.
  - cbn [map blank_step]. rewrite !session_call.
    rewrite (blind_perform net Hnet self op w). cbn [fst snd].
    rewrite IH. reflexivity.
Qed.

Lemma scripted_blind script : password_blind (scripted script).
Proof. intros h. unfold scripted. rewrite length_map. reflexivity. Qed.

Lemma one_client_blind : password_blind one_client.
Proof. intros [|r h]; reflexivity. Qed.

(** ** A run depends on the transport through its answers only *)

Lemma suffix_of_refl h : suffix_of h h.
Proof. exists []. reflexivity. Qed.

Lemma suffix_of_cons r h : suffix_of h (r :: h).
Proof. exists [r]. reflexivity. Qed.

Lemma suffix_of_trans h1 h2 h3 :
  suffix_of h1 h2 -> suffix_of h2 h3 -> suffix_of h1 h3.
Proof.
  intros [n1 ->] [n2 ->]. exists (n2 ++ n1)%list. apply app_assoc.
Qed.

Lemma answers_alike_later cs cs' final net net' :
  answers_alike_from cs final net net' ->
  suffix_of cs cs' ->
  answers_alike_from cs' final net net'.
Proof.
  intros H Hs r pre Hpre Hf. apply H; [|exact Hf].
  eapply suffix_of_trans; eassumption.
Qed.

Section Replay.

Variables net net' : transport.
Variable final : list request.

Lemma replays_ret {A} (a : A) : replays net net' final (ret a) (ret a).
Proof. split; intros w; [apply suffix_of_refl | reflexivity]. Qed.

Lemma replays_lift {A} (r : result A) : replays net net' final (lift r) (lift r).
Proof. split; intros w; [apply suffix_of_refl | reflexivity]. Qed.

Lemma replays_log lg lvl msg :
  replays net net' final (log lg lvl msg) (log lg lvl msg).
Proof. split; intros w; [apply suffix_of_refl | reflexivity]. Qed.

Lemma requests_get_calls r w :
  calls (snd (requests_get net r w)) = r :: calls w.
Proof. unfold requests_get. destruct (net (r :: calls w)); reflexivity. Qed.

Lemma replays_requests_get r :
  replays net net' final (requests_get net r) (requests_get net' r).
Proof.
  split; intros w.
  - rewrite requests_get_calls. apply suffix_of_cons.
  - rewrite requests_get_calls. intros Hf Ha. unfold requests_get.
    rewrite (Ha r (calls w) (suffix_of_refl _) Hf). reflexivity.
Qed.

Lemma replays_bind {A B} (m m' : M A) (k k' : A -> M B) :
  replays net net' final m m' ->
  (forall a, replays net net' final (k a) (k' a)) ->
  replays net net' final (bind m k) (bind m' k').
Proof.
  intros [Gm Rm] Hk. split; intros w.
  - unfold bind. specialize (Gm w).
    destruct (m w) as [[a|e] w1]; simpl in *; [|exact Gm].
    eapply suffix_of_trans; [exact Gm | apply (proj1 (Hk a))].
  - intros Hf Ha. unfold bind in *. specialize (Gm w). specialize (Rm w).
    destruct (m w) as [[a|e] w1]; simpl in *.
    + rewrite Rm; [| | exact Ha].
      * apply (proj2 (Hk a)); [exact Hf|].
        eapply answers_alike_later; eassumption.
      * eapply suffix_of_trans; [apply (proj1 (Hk a)) | exact Hf].
    + rewrite Rm; [reflexivity | exact Hf | exact Ha].
Qed.

Lemma replays_catch {A} (m m' : M A) (h h' : exn -> M A) :
  replays net net' final m m' ->
  (forall e, replays net net' final (h e) (h' e)) ->
  replays net net' final (catch m h) (catch m' h').
Proof.
  intros [Gm Rm] Hh. split; intros w.
  - unfold catch. specialize (Gm w).
    destruct (m w) as [[a|e] w1]; simpl in *; [exact Gm|].
    eapply suffix_of_trans; [exact Gm | apply (proj1 (Hh e))].
  - intros Hf Ha. unfold catch in *. specialize (Gm w). specialize (Rm w).
    destruct (m w) as [[a|e] w1]; simpl in *.
    + rewrite Rm; [reflexivity | exact Hf | exact Ha].
    + rewrite Rm; [| | exact Ha].
      * apply (proj2 (Hh e)); [exact Hf|].
        eapply answers_alike_later; eassumption.
      * eapply suffix_of_trans; [apply (proj1 (Hh e)) | exact Hf].
Qed.

Lemma replays_for_range {A} n i (body body' : Z -> M (option A)) orelse orelse' :
  (forall i, replays net net' final (body i) (body' i)) ->
  replays net net' final orelse orelse' ->
  replays net net' final (for_range n i body orelse)
    (for_range n i body' orelse').
Proof.
  intros Hb Ho. revert i. induction n as [|n IH]; intros i; simpl; [exact Ho|].
  apply replays_bind; [apply Hb|]. intros [a|]; [apply replays_ret | apply IH].
Qed.

Ltac replays_step :=
  first [ apply replays_ret | apply replays_lift | apply replays_log
        | apply replays_requests_get
        | apply replays_for_range | apply replays_catch | apply replays_bind ].

Variable self : IosXeWlc.

Lemma replays_test : replays net net' final (test net self) (test net' self).
Proof.
  unfold test, test_try. repeat (replays_step; intros).
  split_on_status; repeat (replays_step; intros).
Qed.

Lemma replays_get_client_addresses client :
  replays net net' final (get_client_addresses net self client)
    (get_client_addresses net' self client).
Proof.
  unfold get_client_addresses, get_client_addresses_loop,
    get_client_addresses_try.
  repeat (replays_step; intros).
  split_on_status; repeat (replays_step; intros).
Qed.

Lemma replays_add_ip_info items :
  replays net net' final (add_ip_info net self items)
    (add_ip_info net' self items).
Proof.
  induction items as [|client_obj rest IH]; simpl; [apply replays_ret|].
  apply replays_bind; [apply replays_lift|]. intros mac.
  apply replays_bind; [apply replays_get_client_addresses|]. intros ip_addr.
  apply replays_bind; [apply replays_lift|]. intros client_obj'.
  apply replays_bind; [exact IH|]. intros rest'. apply replays_ret.
Qed.

Lemma replays_get_clients client get_ip_info :
  replays net net' final (get_clients net self client get_ip_info)
    (get_clients net' self client get_ip_info).
Proof.
  unfold get_clients, get_clients_loop, get_clients_try.
  repeat (replays_step; intros).
  split_on_status; repeat (replays_step; intros).
  unfold get_ip_info_block. destruct get_ip_info; [|apply replays_ret].
  apply replays_bind; [apply replays_lift|]. intros items.
  apply replays_bind; [apply replays_add_ip_info|]. intros. apply replays_ret.
Qed.

Lemma replays_perform op :
  replays net net' final (perform net self op) (perform net' self op).
Proof.
  destruct op; simpl.
  - apply replays_bind; [apply replays_test|]. intros; apply replays_ret.
  - apply replays_get_clients.
  - apply replays_get_client_addresses.
Qed.

End Replay.

(** A session only ever adds requests, and it is the same session under any
    transport that answers its requests alike. *)
Lemma session_replays net net' final steps :
  forall self w,
    suffix_of (calls w) (calls (snd (session net self steps w)))
    /\ (suffix_of (calls (snd (session net self steps w))) final ->
        answers_alike_from (calls w) final net net' ->
        session net' self steps w = session net self steps w).
Proof.
  induction steps as [|[u p|op] steps IH]; intros self w.
  - split; [apply suffix_of_refl | reflexivity].
  - rewrite !session_update. cbv zeta. cbn [snd].
    match goal with
    | |- context [session net ?s steps ?w1] =>
        destruct (IH s w1) as [G R]
    end.
    split; [exact G|]. intros Hf Ha. rewrite R; auto.
  - rewrite !session_call. cbn [snd].
    destruct (replays_perform net net' final self op) as [Gp Rp].
    destruct (IH self (snd (perform net self op w))) as [G R].
    split.
    + eapply suffix_of_trans; [apply Gp | exact G].
    + intros Hf Ha. rewrite Rp; [| | exact Ha].
      * rewrite R; [reflexivity | exact Hf |].
        eapply answers_alike_later; [exact Ha | apply Gp].
      * eapply suffix_of_trans; [exact G | exact Hf].
Qed.

Lemma skipn_suffix (h final : list request) :
  suffix_of h final ->
  skipn (List.length final - List.length h) final = h.
Proof.
  intros [new ->]. rewrite length_app.
  replace (List.length new + List.length h - List.length h)%nat
    with (List.length new) by lia.
  rewrite skipn_app, skipn_all, Nat.sub_diag. reflexivity.
Qed.

(** The transport that gives again, in their order, the answers [net] gave
    in the run whose requests are [final]. *)
Lemma scripted_replays net final cs :
  answers_alike_from cs final net
    (scripted (fun n => nth_answer net final (S n))).
Proof.
  intros r pre _ Hf. unfold scripted, nth_answer. cbn [List.length pred].
  change (S (List.length pre)) with (List.length (r :: pre)).
  rewrite (skipn_suffix _ _ Hf). reflexivity.
Qed.

(** Two sessions that differ in their passwords only, each on its own
    transport: if request for request they are given the same answers, they
    log the same messages and return the same results. *)
Lemma sessions_alike net1 net2 self1 self2 steps1 steps2 w :
  blank_instance self1 = blank_instance self2 ->
  map blank_step steps1 = map blank_step steps2 ->
  let final1 := calls (snd (session net1 self1 steps1 w)) in
  let final2 := calls (snd (session net2 self2 steps2 w)) in
  (forall n, (List.length (calls w) < n <= List.length final2)%nat ->
             nth_answer net1 final1 n = nth_answer net2 final2 n) ->
  logs (snd (session net1 self1 steps1 w)) = logs (snd (session net2 self2 steps2 w))
  /\ fst (session net1 self1 steps1 w) = fst (session net2 self2 steps2 w).
Proof.
  intros Hself Hsteps final1 final2 Hans.
  set (net := scripted (fun n => nth_answer net1 final1 (S n))).
  assert (H1 : session net self1 steps1 w = session net1 self1 steps1 w).
  { apply (proj2 (session_replays net1 net final1 steps1 self1 w)).
    - apply suffix_of_refl.
    - apply scripted_replays. }
  assert (H2 : session net self2 steps2 w = session net2 self2 steps2 w).
  { apply (proj2 (session_replays net2 net final2 steps2 self2 w)).
    - apply suffix_of_refl.
    - intros r pre Hpre Hf. unfold net, scripted. cbn [List.length pred].
      rewrite Hans.
      + unfold nth_answer.
        change (S (List.length pre)) with (List.length (r :: pre)).
        rewrite (skipn_suffix _ _ Hf). reflexivity.
      + destruct Hpre as [n1 ->]. destruct Hf as [n2 Hf].
        fold final2 in Hf. rewrite Hf.
        cbn [List.length]. rewrite !length_app. cbn [List.length].
        rewrite !length_app. lia. }
  pose proof (blind_session net (scripted_blind _) steps1 self1 w) as B1.
  pose proof (blind_session net (scripted_blind _) steps2 self2 w) as B2.
  rewrite Hself, Hsteps, B2, H1, H2 in B1.
  split.
  - exact (eq_sym (f_equal (fun x => logs (snd x)) B1)).
  - exact (eq_sym (f_equal fst B1)).
Qed.

(** C9.  No message handed to the logger is built from a password.  Take
    two sessions of [update_creds], [test], [get_clients] and
    [get_client_addresses] calls on an instance, alike but for the passwords:
    the one given at construction and those given to [update_creds].  If,
    request for request, the transport gives the two the same answers, they
    hand the logger the same messages, one for one, and return the same
    results: the passwords change nothing in the log unless they change what
    the device answers.  And [update_creds] logs one message, made of a fixed
    text and the new username. *)
Theorem C9_password_never_logged :
  (forall net1 net2 self1 self2 steps1 steps2 w,
     blank_instance self1 = blank_instance self2 ->
     map blank_step steps1 = map blank_step steps2 ->
     let final1 := calls (snd (session net1 self1 steps1 w)) in
     let final2 := calls (snd (session net2 self2 steps2 w)) in
     (forall n, (List.length (calls w) < n <= List.length final2)%nat ->
                nth_answer net1 final1 n = nth_answer net2 final2 n) ->
     logs (snd (session net1 self1 steps1 w))
     = logs (snd (session net2 self2 steps2 w))
     /\ fst (session net1 self1 steps1 w) = fst (session net2 self2 steps2 w))
  /\ (forall self u p w,
        logs (snd (update_creds self u p w))
        = mk_entry (logger_name (_logger self)) DEBUG
            ("Updating credentials. Username: " ++ u) :: logs w).
Proof.
  split.
  - exact sessions_alike.
  - intros self u p w. reflexivity.
Qed.

(** Two devices, each guarding the client list with its own password, and a
    session on each with the right one. *)
Lemma C9_witness :
  let steps pw :=
    [Call Test; UpdateCreds "admin" pw;
     Call (GetClients (VStr "AA:BB:CC:DD:EE:FF") true)] in
  logs (snd (session (guarded "secret")
               (__init__ "wlc1" "admin" "secret" None INFO) (steps "secret") fresh))
  = logs (snd (session (guarded "12345")
                 (__init__ "wlc1" "admin" "12345" None INFO) (steps "12345") fresh))
  /\ fst (session (guarded "secret")
            (__init__ "wlc1" "admin" "secret" None INFO) (steps "secret") fresh)
     = fst (session (guarded "12345")
              (__init__ "wlc1" "admin" "12345" None INFO) (steps "12345") fresh).
Proof.
  apply (proj1 C9_password_never_logged (guarded "secret") (guarded "12345")).
  - reflexivity.
  - reflexivity.
  - intros n Hn. vm_compute in Hn.
    destruct n as [|[|[|[|n]]]]; try reflexivity; lia.
Defined.

(** The same for every transport that does not look at the passwords, and
    every fixed sequence of answers is one. *)
Lemma password_blind_sessions_alike net self1 self2 steps1 steps2 w :
  password_blind net ->
  blank_instance self1 = blank_instance self2 ->
  map blank_step steps1 = map blank_step steps2 ->
  logs (snd (session net self1 steps1 w)) = logs (snd (session net self2 steps2 w))
  /\ fst (session net self1 steps1 w) = fst (session net self2 steps2 w).
Proof.
  intros Hnet Hself Hsteps.
  pose proof (blind_session net Hnet steps1 self1 w) as H1.
  pose proof (blind_session net Hnet steps2 self2 w) as H2.
  rewrite Hself, Hsteps, H2 in H1.
  split.
  - exact (eq_sym (f_equal (fun x => logs (snd x)) H1)).
  - exact (eq_sym (f_equal fst H1)).
Qed.

(** ** Counting what a method does *)

Section Preserves.

Variable f : world -> nat.

Lemma preserves_ret {A} (a : A) : preserves f (ret a).
Proof. intros w. reflexivity. Qed.

Lemma preserves_lift {A} (r : result A) : preserves f (lift r).
Proof. intros w. reflexivity. Qed.

Lemma preserves_bind {A B} (m : M A) (k : A -> M B) :
  preserves f m -> (forall a, preserves f (k a)) -> preserves f (bind m k).
Proof.
  intros Hm Hk w. unfold bind. specialize (Hm w).
  destruct (m w) as [[a|e] w1]; simpl in *; [|exact Hm].
  rewrite Hk. exact Hm.
Qed.

Lemma preserves_catch {A} (m : M A) (h : exn -> M A) :
  preserves f m -> (forall e, preserves f (h e)) -> preserves f (catch m h).
Proof.
  intros Hm Hh w. unfold catch. specialize (Hm w).
  destruct (m w) as [[a|e] w1]; simpl in *; [exact Hm|].
  rewrite Hh. exact Hm.
Qed.

Lemma preserves_for_range {A} n i (body : Z -> M (option A)) orelse :
  (forall i, preserves f (body i)) -> preserves f orelse ->
  preserves f (for_range n i body orelse).
Proof.
  intros Hb Ho. revert i. induction n as [|n IH]; intros i; simpl; [exact Ho|].
  apply preserves_bind; [apply Hb|].
  intros [a|]; [apply preserves_ret | apply IH].
Qed.

End Preserves.

Lemma preserves_sent_log u lg lvl msg : preserves (sent_to u) (log lg lvl msg).
Proof. intros w. reflexivity. Qed.

Lemma preserves_sent_get u net r :
  String.eqb (url r) u = false -> preserves (sent_to u) (requests_get net r).
Proof.
  intros H w. unfold requests_get, sent_to.
  destruct (net (r :: calls w)); simpl; rewrite H; reflexivity.
Qed.

Lemma preserves_lookups_log lg lvl msg :
  String.prefix "Starting GET_CLIENT_ADDRESSES for " msg = false ->
  preserves lookups_started (log lg lvl msg).
Proof.
  intros H w. unfold log, lookups_started, is_lookup_start. simpl.
  rewrite H. reflexivity.
Qed.

Lemma preserves_lookups_get net r : preserves lookups_started (requests_get net r).
Proof.
  intros w. unfold requests_get. destruct (net (r :: calls w)); reflexivity.
Qed.

(** The two listings never share a URL. *)
Lemma addresses_url_not_clients_url self c c' :
  String.eqb (addresses_url self c) (clients_url self c') = false.
Proof.
  apply String.eqb_neq. unfold addresses_url, clients_url. intros H.
  apply (string_app_inv_head "https://") in H.
  apply (string_app_inv_head (host self)) in H.
  simpl in H. discriminate H.
Qed.

Section Lookups.

Variable net : transport.
Variable self : IosXeWlc.

Lemma get_client_addresses_loop_quiet client n i :
  preserves lookups_started (get_client_addresses_loop net self client n i).
Proof.
  unfold get_client_addresses_loop, get_client_addresses_try.
  apply preserves_for_range.
  - intros j. apply preserves_catch.
    + apply preserves_bind; [apply preserves_lookups_get|]. intros resp.
      split_on_status.
      * repeat (apply preserves_bind; [apply preserves_lift|]; intros).
        apply preserves_bind; [|intros; apply preserves_ret].
        apply preserves_lookups_log. reflexivity.
      * apply preserves_bind; [|intros; apply preserves_ret].
        apply preserves_lookups_log. reflexivity.
    + intros e. apply preserves_bind; [|intros; apply preserves_ret].
      apply preserves_lookups_log. reflexivity.
  - apply preserves_bind; [|intros; apply preserves_ret].
    apply preserves_lookups_log. reflexivity.
Qed.

(** A lookup that returns has logged its opening message once. *)
Lemma get_client_addresses_counts mac w ip_addr w1 :
  get_client_addresses net self mac w = (Ok ip_addr, w1) ->
  lookups_started w1 = S (lookups_started w).
Proof.
  unfold get_client_addresses. unfold bind at 1, lift at 1.
  destruct (check_client mac) as [c|e]; [|discriminate].
  unfold bind at 1, log at 1. intros H.
  pose proof (get_client_addresses_loop_quiet c (Z.to_nat (retry self)) 0
                (mk_world (calls w)
                   (mk_entry (logger_name (_logger self)) DEBUG
                      ("Starting GET_CLIENT_ADDRESSES for " ++ who c ++ "...")
                    :: logs w))) as Hq.
  rewrite H in Hq. cbn [snd] in Hq. rewrite Hq.
  unfold lookups_started, is_lookup_start. cbn [logs filter entry_message].
  rewrite prefix_app. reflexivity.
Qed.

Lemma get_client_addresses_keeps_sent mac c' :
  preserves (sent_to (clients_url self c')) (get_client_addresses net self mac).
Proof.
  unfold get_client_addresses, get_client_addresses_loop,
    get_client_addresses_try.
  apply preserves_bind; [apply preserves_lift|]. intros c.
  apply preserves_bind; [apply preserves_sent_log|]. intros _.
  apply preserves_for_range.
  - intros j. apply preserves_catch.
    + apply preserves_bind.
      * apply preserves_sent_get. apply addresses_url_not_clients_url.
      * intros resp. split_on_status.
        -- repeat (apply preserves_bind; [apply preserves_lift|]; intros).
           apply preserves_bind; [apply preserves_sent_log|].
           intros; apply preserves_ret.
        -- apply preserves_bind; [apply preserves_sent_log|].
           intros; apply preserves_ret.
    + intros e. apply preserves_bind; [apply preserves_sent_log|].
      intros; apply preserves_ret.
  - apply preserves_bind; [apply preserves_sent_log|].
    intros; apply preserves_ret.
Qed.

(** Once its argument has passed the check, a lookup returns. *)
Lemma get_client_addresses_returns mac c w :
  check_client mac = Ok c ->
  exists ip_addr w1, get_client_addresses net self mac w = (Ok ip_addr, w1).
Proof.
  intros Hc. unfold get_client_addresses. unfold bind at 1, lift at 1.
  rewrite Hc. unfold bind at 1, log at 1.
  generalize (mk_world (calls w)
                (mk_entry (logger_name (_logger self)) DEBUG
                   ("Starting GET_CLIENT_ADDRESSES for " ++ who c ++ "...")
                 :: logs w)).
  unfold get_client_addresses_loop. generalize 0.
  induction (Z.to_nat (retry self)) as [|n IH]; intros i w0; simpl.
  - unfold_monad. eauto.
  - unfold bind at 1.
    assert (Ht : exists o w', get_client_addresses_try net self c i w0 = (Ok o, w')).
    { unfold get_client_addresses_try, catch.
      match goal with |- context [bind ?m ?k w0] => destruct (bind m k w0) as [[o|e] w'] end.
      - eauto.
      - unfold_monad. eauto. }
    destruct Ht as [o [w' Ht]]. rewrite Ht.
    destruct o as [v|]; [unfold ret; eauto | apply IH].
Qed.

End Lookups.

(** ** The lookups of [get_clients] *)

Lemma dict_get_set key v d : dict_get key (dict_set key v d) = Some v.
Proof.
  induction d as [|[k x] d IH]; simpl.
  - rewrite String.eqb_refl. reflexivity.
  - destruct (String.eqb k key) eqn:Hk; simpl; rewrite Hk; [reflexivity | exact IH].
Qed.

Lemma py_getitem_ok client_obj key x :
  py_getitem client_obj key = Ok x ->
  exists d, client_obj = VDict d /\ dict_get key d = Some x.
Proof.
  destruct client_obj; simpl; try discriminate.
  destruct (dict_get key fields) as [y|] eqn:Hd; [|discriminate].
  intros H; injection H as <-. eauto.
Qed.

Section Enrichment.

Variable net : transport.
Variable self : IosXeWlc.

(** One step of the [for client_obj in client_list] loop. *)
Lemma add_ip_info_cons client_obj rest w :
  add_ip_info net self (client_obj :: rest) w =
  match py_getitem client_obj "client-mac" with
  | Raise e => (Raise e, w)
  | Ok mac =>
      match get_client_addresses net self mac w with
      | (Raise e, w1) => (Raise e, w1)
      | (Ok ip_addr, w1) =>
          match py_setitem client_obj "ip_addr" ip_addr with
          | Raise e => (Raise e, w1)
          | Ok client_obj' =>
              match add_ip_info net self rest w1 with
              | (Raise e, w2) => (Raise e, w2)
              | (Ok rest', w2) => (Ok (client_obj' :: rest'), w2)
              end
          end
      end
  end.
Proof.
  cbn [add_ip_info]. unfold bind at 1, lift at 1.
  destruct (py_getitem client_obj "client-mac") as [mac|e]; [|reflexivity].
  unfold bind at 1.
  destruct (get_client_addresses net self mac w) as [[ip_addr|e] w1]; [|reflexivity].
  unfold bind at 1, lift at 1.
  destruct (py_setitem client_obj "ip_addr" ip_addr) as [client_obj'|e];
    [|reflexivity].
  unfold bind at 1.
  destruct (add_ip_info net self rest w1) as [[rest'|e] w2]; reflexivity.
Qed.

(** The loop, when it comes to its end, has done what [enriched] says. *)
Lemma add_ip_info_enriched items :
  forall w items' w',
    add_ip_info net self items w = (Ok items', w') ->
    enriched net self w items items' w'.
Proof.
  induction items as [|client_obj rest IH]; intros w items' w' H.
  - injection H as <- <-. constructor.
  - rewrite add_ip_info_cons in H.
    destruct (py_getitem client_obj "client-mac") as [mac|e] eqn:Hg;
      [|discriminate].
    destruct (py_getitem_ok _ _ _ Hg) as [d [-> Hd]].
    destruct (get_client_addresses net self mac w) as [[ip_addr|e] w1] eqn:Ha;
      [|discriminate].
    simpl in H.
    destruct (add_ip_info net self rest w1) as [[rest'|e] w2] eqn:Hr;
      [|discriminate].
    injection H as <- <-.
    econstructor; eauto.
Qed.

Lemma enriched_facts w items items' w' :
  enriched net self w items items' w' ->
  List.length items' = List.length items
  /\ lookups_started w' = (lookups_started w + List.length items)%nat
  /\ Forall (fun x => exists d ip_addr,
                        x = VDict d /\ dict_get "ip_addr" d = Some ip_addr) items'.
Proof.
  induction 1 as [w|w d mac ip_addr w1 rest rest' w2 Hd Ha _ [IH1 [IH2 IH3]]].
  - repeat split; simpl; auto.
  - repeat split; simpl.
    + rewrite IH1. reflexivity.
    + rewrite IH2, (get_client_addresses_counts _ _ _ _ _ _ Ha). lia.
    + constructor; [|exact IH3]. do 2 eexists. split; [reflexivity|].
      apply dict_get_set.
Qed.

(** Records that are all in order make the loop come to its end. *)
Lemma add_ip_info_returns items :
  Forall (fun x => good_record x = true) items ->
  forall w, exists items' w', add_ip_info net self items w = (Ok items', w').
Proof.
  induction 1 as [|client_obj rest Hg _ IH]; intros w.
  - do 2 eexists. reflexivity.
  - rewrite add_ip_info_cons.
    destruct client_obj; try discriminate Hg.
    cbn [good_record] in Hg. cbn [py_getitem py_setitem].
    destruct (dict_get "client-mac" fields) as [mac|]; [|discriminate Hg].
    destruct (check_client mac) as [c|e] eqn:Hc; [|discriminate Hg].
    destruct (get_client_addresses_returns net self mac c w Hc)
      as [ip_addr [w1 Ha]].
    rewrite Ha. destruct (IH w1) as [rest' [w2 Hr]]. rewrite Hr. eauto.
Qed.

(** One record out of order makes the loop raise, at that record or before. *)
Lemma add_ip_info_raises items :
  Exists (fun x => bad_record x = true) items ->
  forall w, exists e w', add_ip_info net self items w = (Raise e, w').
Proof.
  induction 1 as [client_obj rest Hb|client_obj rest _ IH]; intros w;
    rewrite add_ip_info_cons.
  - destruct client_obj; try discriminate Hb.
    cbn [bad_record] in Hb. cbn [py_getitem].
    destruct (dict_get "client-mac" fields) as [mac|]; [|eauto].
    destruct mac; try discriminate Hb.
    unfold get_client_addresses. unfold bind at 1, lift at 1.
    destruct (check_client (VStr s)) as [c|e]; [discriminate Hb | eauto].
  - destruct (py_getitem client_obj "client-mac") as [mac|e]; [|eauto].
    destruct (get_client_addresses net self mac w) as [[ip_addr|e] w1]; [|eauto].
    destruct (py_setitem client_obj "ip_addr" ip_addr) as [client_obj'|e];
      [|eauto].
    destruct (IH w1) as [e [w2 Hr]]. rewrite Hr. eauto.
Qed.

Lemma add_ip_info_keeps_sent c' items :
  preserves (sent_to (clients_url self c')) (add_ip_info net self items).
Proof.
  induction items as [|client_obj rest IH]; [apply preserves_ret|].
  cbn [add_ip_info].
  apply preserves_bind; [apply preserves_lift|]. intros mac.
  apply preserves_bind; [apply get_client_addresses_keeps_sent|]. intros ip_addr.
  apply preserves_bind; [apply preserves_lift|]. intros client_obj'.
  apply preserves_bind; [exact IH|]. intros; apply preserves_ret.
Qed.

(** A turn of [get_clients], lookups on, that is answered 200 with an array
    of records: it returns the records after their lookups, or, if a lookup
    raised, logs a warning and asks for the next turn. *)
Lemma get_clients_try_with_records client i w r records :
  net (get_request self (clients_url self client) :: calls w) = Responds r ->
  status_code r = 200 ->
  envelope clients_key r = Some records ->
  get_clients_try net self client true i w =
  match add_ip_info net self records (lookups_begin self client i r records w) with
  | (Ok items', w') => (Ok (Some (VList items')), w')
  | (Raise e, w') =>
      (Ok None,
       mk_world (calls w')
         (mk_entry (logger_name (_logger self)) WARNING
            ("GET_CLIENTS failed for " ++ who client ++ ". Error: "
             ++ exn_class e ++ ": " ++ exn_str e) :: logs w'))
  end.
Proof.
  intros H Hs He. unfold get_clients_try, lookups_begin.
  unfold catch, bind at 1, requests_get. rewrite H, Hs. cbn [Z.eqb Pos.eqb].
  unfold envelope in He.
  destruct (json r) as [[]|]; try discriminate He.
  unfold bind at 1, lift at 1. unfold bind at 1, lift at 1. unfold py_get.
  destruct (dict_get clients_key fields) as [[]|]; try discriminate He;
    injection He as <-;
    unfold bind at 1, lift at 1; cbn [py_len];
    unfold bind at 1, log at 1; cbn [calls logs];
    unfold bind at 1, get_ip_info_block; unfold bind at 1, lift at 1;
    cbn [py_iter]; unfold bind at 1;
    match goal with
    | |- context [add_ip_info net self ?l ?w0] =>
        destruct (add_ip_info net self l w0) as [[items'|e] w']
    end; reflexivity.
Qed.

End Enrichment.

(** C6, as stated, fails.  The call below returns a list of one record, yet
    [get_client_addresses] has been invoked twice in it: the first attempt
    looked up the first record of its answer and then hit a record without
    [client-mac]; the second attempt, which returns, did its own lookup. *)
Lemma C6_counterexample :
  fst (get_clients second_thoughts wlc1 VNone true fresh)
  = Ok (VList [VDict [("client-mac", VStr "aa:bb:cc:dd:ee:ff");
                      ("ip_addr", VList [])]])
  /\ lookups_started fresh = 0%nat
  /\ lookups_started (snd (get_clients second_thoughts wlc1 VNone true fresh))
     = 2%nat.
Proof. repeat split. Qed.

(** C6, amended.  In the attempt of [get_clients] that returns, lookups on,
    having been answered 200 with an array of N records,
    [get_client_addresses] is invoked exactly N times, once for each record
    in turn with that record's [client-mac], and the list returned holds the
    N records, each with the result of its lookup as [ip_addr].  When the
    attempts before it failed at the transport and the records are in order,
    the call returns so, and these N lookups are all the lookups of the
    call. *)
Theorem C6_lookups_of_the_returning_attempt :
  forall net self client,
    (forall i w r records v w',
       net (get_request self (clients_url self client) :: calls w) = Responds r ->
       status_code r = 200 ->
       envelope clients_key r = Some records ->
       get_clients_try net self client true i w = (Ok (Some v), w') ->
       exists records',
         v = VList records'
         /\ List.length records' = List.length records
         /\ enriched net self (lookups_begin self client i r records w)
              records records' w'
         /\ lookups_started w' = (lookups_started w + List.length records)%nat
         /\ Forall (fun x => exists d ip_addr,
                              x = VDict d /\ dict_get "ip_addr" d = Some ip_addr)
              records')
    /\ (forall arg w k r records,
          check_client arg = Ok client ->
          (k < Z.to_nat (retry self))%nat ->
          (forall j, (j < k)%nat ->
             outcome_fails
               (attempt_outcome net (get_request self (clients_url self client)) w j)
             = true) ->
          attempt_outcome net (get_request self (clients_url self client)) w k
          = Responds r ->
          status_code r = 200 ->
          envelope clients_key r = Some records ->
          Forall (fun x => good_record x = true) records ->
          exists records' w1 w',
            get_clients net self arg true w = (Ok (VList records'), w')
            /\ List.length records' = List.length records
            /\ enriched net self w1 records records' w'
            /\ lookups_started w1 = lookups_started w
            /\ lookups_started w' = (lookups_started w + List.length records)%nat
            /\ Forall (fun x => exists d ip_addr,
                                 x = VDict d /\ dict_get "ip_addr" d = Some ip_addr)
                 records').
Proof.
  intros net self client. split.
  - intros i w r records v w' H Hs He Ht.
    rewrite (get_clients_try_with_records net self client i w r records H Hs He)
      in Ht.
    destruct (add_ip_info net self records (lookups_begin self client i r records w))
      as [[items'|e] w2] eqn:Ha; [|discriminate].
    injection Ht as <- <-.
    apply add_ip_info_enriched in Ha.
    destruct (enriched_facts net self _ _ _ _ Ha) as [Hl [Hc Hf]].
    exists items'. repeat split; auto.
  - intros arg w k r records Harg Hk Hfail Hr Hs He Hgood.
    unfold get_clients. unfold bind at 1, lift at 1. rewrite Harg.
    unfold bind at 1, log at 1. unfold get_clients_loop.
    set (w0 := mk_world (calls w) _).
    destruct (for_range_skips net self value
                (get_request self (clients_url self client))
                (get_clients_try net self client true)
                (log (_logger self) ERROR (failed_message "GET_CLIENTS" self) ;;
                 ret (VList []))
                (get_clients_try_fails net self client true)
                k (Z.to_nat (retry self) - k) 0 w0 Hfail)
      as [wk [Hf [Hc Hl]]].
    replace (k + (Z.to_nat (retry self) - k))%nat with (Z.to_nat (retry self))
      in Hf by lia.
    rewrite Hf.
    destruct (Z.to_nat (retry self) - k)%nat as [|m] eqn:Hm; [lia|].
    cbn [for_range]. unfold bind at 1.
    rewrite (get_clients_try_with_records net self client _ wk r records);
      [| rewrite Hc; exact Hr | exact Hs | exact He].
    destruct (add_ip_info_returns net self records Hgood
                (lookups_begin self client (0 + Z.of_nat k) r records wk))
      as [items' [w' Ha]].
    rewrite Ha. unfold ret.
    apply add_ip_info_enriched in Ha.
    destruct (enriched_facts net self _ _ _ _ Ha) as [Hlen [Hcount Hip]].
    exists items', (lookups_begin self client (0 + Z.of_nat k) r records wk), w'.
    split; [reflexivity|]. split; [exact Hlen|]. split; [exact Ha|].
    assert (Hb : lookups_started
                   (lookups_begin self client (0 + Z.of_nat k) r records wk)
                 = lookups_started w).
    { transitivity (lookups_started wk); [reflexivity|]. rewrite Hl. reflexivity. }
    split; [exact Hb|]. split; [|exact Hip].
    rewrite Hcount, Hb. reflexivity.
Qed.

Lemma C6_witness :
  exists records' w1 w',
    get_clients one_client wlc1 (VStr "AA-BB-CC-DD-EE-FF") true fresh
    = (Ok (VList records'), w')
    /\ List.length records' = 1%nat
    /\ enriched one_client wlc1 w1
         [VDict [("client-mac", VStr "aa:bb:cc:dd:ee:ff")]] records' w'
    /\ lookups_started w1 = 0%nat
    /\ lookups_started w' = (0 + 1)%nat
    /\ Forall (fun x => exists d ip_addr,
                          x = VDict d /\ dict_get "ip_addr" d = Some ip_addr)
         records'.
Proof.
  apply (proj2 (C6_lookups_of_the_returning_attempt one_client wlc1
                  (Some "aa:bb:cc:dd:ee:ff"))
           (VStr "AA-BB-CC-DD-EE-FF") fresh 0%nat
           (mk_response 200
              (Ok (VDict [(clients_key,
                           VList [VDict [("client-mac", VStr "aa:bb:cc:dd:ee:ff")]])]))
              "0.01")
           [VDict [("client-mac", VStr "aa:bb:cc:dd:ee:ff")]]).
  - reflexivity.
  - simpl; lia.
  - intros j Hj; lia.
  - reflexivity.
  - reflexivity.
  - reflexivity.
  - repeat constructor.
Defined.

(** ** Lookups that raise *)

Section BadRecords.

Variable net : transport.
Variable self : IosXeWlc.
Variable client : option string.

(** A turn answered 200 with an array in which some record is bad. *)
Lemma get_clients_try_bad_record i w r records :
  net (get_request self (clients_url self client) :: calls w) = Responds r ->
  status_code r = 200 ->
  envelope clients_key r = Some records ->
  Exists (fun x => bad_record x = true) records ->
  exists w' e,
    get_clients_try net self client true i w = (Ok None, w')
    /\ hd_error (logs w')
       = Some (mk_entry (logger_name (_logger self)) WARNING
                 ("GET_CLIENTS failed for " ++ who client ++ ". Error: "
                  ++ exn_class e ++ ": " ++ exn_str e))
    /\ sent_to (clients_url self client) w'
       = S (sent_to (clients_url self client) w).
Proof.
  intros H Hs He Hbad.
  rewrite (get_clients_try_with_records net self client i w r records H Hs He).
  pose proof (add_ip_info_keeps_sent net self client records
                (lookups_begin self client i r records w)) as Hk.
  destruct (add_ip_info_raises net self records Hbad
              (lookups_begin self client i r records w)) as [e [w2 Ha]].
  rewrite Ha in *. cbn [snd] in Hk.
  do 2 eexists. split; [reflexivity|]. split; [reflexivity|].
  unfold sent_to in *. cbn [calls]. rewrite Hk.
  unfold lookups_begin. cbn [calls filter url get_request].
  rewrite String.eqb_refl. reflexivity.
Qed.

(** When every answer to the request of [get_clients] is of that kind, the
    loop runs out. *)
Lemma get_clients_loop_bad_records n :
  (forall h, exists r records,
     net (get_request self (clients_url self client) :: h) = Responds r
     /\ status_code r = 200
     /\ envelope clients_key r = Some records
     /\ Exists (fun x => bad_record x = true) records) ->
  forall i w,
  exists w',
    get_clients_loop net self client true n i w = (Ok (VList []), w')
    /\ sent_to (clients_url self client) w'
       = (sent_to (clients_url self client) w + n)%nat
    /\ hd_error (logs w')
       = Some (mk_entry (logger_name (_logger self)) ERROR
                 (failed_message "GET_CLIENTS" self)).
Proof.
  intros Hnet. unfold get_clients_loop.
  induction n as [|n IH]; intros i w.
  - eexists. split; [reflexivity|]. split; [|reflexivity].
    cbn. rewrite Nat.add_0_r. reflexivity.
  - destruct (Hnet (calls w)) as [r [records [H [Hs [He Hbad]]]]].
    destruct (get_clients_try_bad_record i w r records H Hs He Hbad)
      as [w1 [e [Ht [_ Hsent]]]].
    destruct (IH (i + 1) w1) as [w' [Hl [Hc Hlog]]].
    exists w'. split; [|split; [|exact Hlog]].
    + cbn [for_range]. unfold bind at 1. rewrite Ht. exact Hl.
    + rewrite Hc, Hsent. lia.
Qed.

End BadRecords.

(** C10.  With the lookups on, a 200 whose array holds a record without
    [client-mac], or with a [client-mac] the check rejects, does not make
    [get_clients] raise: the exception of the lookup is caught in the turn,
    which logs it as a warning and asks for the next turn, so the request is
    sent again; when every answer is of that kind the call sends its request
    [retry] times and returns the empty list. *)
Theorem C10_lookup_errors_are_retried :
  forall net self client,
    (forall i w r records,
       net (get_request self (clients_url self client) :: calls w) = Responds r ->
       status_code r = 200 ->
       envelope clients_key r = Some records ->
       Exists (fun x => bad_record x = true) records ->
       exists w' e,
         get_clients_try net self client true i w = (Ok None, w')
         /\ hd_error (logs w')
            = Some (mk_entry (logger_name (_logger self)) WARNING
                      ("GET_CLIENTS failed for " ++ who client ++ ". Error: "
                       ++ exn_class e ++ ": " ++ exn_str e))
         /\ sent_to (clients_url self client) w'
            = S (sent_to (clients_url self client) w)
         /\ (forall n,
               get_clients_loop net self client true (S n) i w
               = get_clients_loop net self client true n (i + 1) w'))
    /\ (forall arg w,
          check_client arg = Ok client ->
          (forall h, exists r records,
             net (get_request self (clients_url self client) :: h) = Responds r
             /\ status_code r = 200
             /\ envelope clients_key r = Some records
             /\ Exists (fun x => bad_record x = true) records) ->
          exists w',
            get_clients net self arg true w = (Ok (VList []), w')
            /\ sent_to (clients_url self client) w'
               = (sent_to (clients_url self client) w + Z.to_nat (retry self))%nat
            /\ hd_error (logs w')
               = Some (mk_entry (logger_name (_logger self)) ERROR
                         (failed_message "GET_CLIENTS" self))).
Proof.
  intros net self client. split.
  - intros i w r records H Hs He Hbad.
    destruct (get_clients_try_bad_record net self client i w r records H Hs He Hbad)
      as [w' [e [Ht [Hlog Hsent]]]].
    exists w', e. repeat split; auto.
    intros n. unfold get_clients_loop. cbn [for_range]. unfold bind at 1.
    rewrite Ht. reflexivity.
  - intros arg w Harg Hnet.
    unfold get_clients. unfold bind at 1, lift at 1. rewrite Harg.
    unfold bind at 1, log at 1.
    destruct (get_clients_loop_bad_records net self client (Z.to_nat (retry self))
                Hnet 0
                (mk_world (calls w)
                   (mk_entry (logger_name (_logger self)) DEBUG
                      ("Starting GET_CLIENTS for " ++ who client ++ "...")
                    :: logs w)))
      as [w' [Hl [Hc Hlog]]].
    exists w'. split; [exact Hl|]. split; [exact Hc | exact Hlog].
Qed.

Lemma C10_witness :
  exists w',
    get_clients one_bad_record wlc1 VNone true fresh = (Ok (VList []), w')
    /\ sent_to (clients_url wlc1 None) w' = (0 + 3)%nat
    /\ hd_error (logs w')
       = Some (mk_entry "IOS-XE-WLC(wlc1)" ERROR
                 "GET_CLIENTS Failed! Tried 4 times. Timeout is 5. Check credentials and host and try again.").
Proof.
  apply (proj2 (C10_lookup_errors_are_retried one_bad_record wlc1 None) VNone fresh).
  - reflexivity.
  - intros h. do 2 eexists. split; [reflexivity|]. split; [reflexivity|].
    split; [reflexivity|]. apply Exists_cons_tl, Exists_cons_hd. reflexivity.
Defined.

(** ** The example of the spec: host [wlc1], [get_clients] for
    [AA:BB:CC:DD:EE:FF], a device that answers 200 with one record *)

Example end_to_end :
  fst (get_clients one_client wlc1 (VStr "AA:BB:CC:DD:EE:FF") true fresh)
  = Ok (VList [VDict [("client-mac", VStr "aa:bb:cc:dd:ee:ff");
                      ("ip_addr", VList [VDict [("ipv4", VStr "10.0.0.7")]])]])
  /\ fst (get_clients one_client wlc1 (VStr "AA:BB:CC:DD:EE:FF") false fresh)
     = Ok (VList [VDict [("client-mac", VStr "aa:bb:cc:dd:ee:ff")]])
  /\ map url (calls (snd (get_clients one_client wlc1 (VStr "AA:BB:CC:DD:EE:FF")
                            true fresh)))
     = ["https://wlc1/restconf/data/Cisco-IOS-XE-wireless-client-oper:client-oper-data/sisf-db-mac=aa:bb:cc:dd:ee:ff";
        "https://wlc1/restconf/data/Cisco-IOS-XE-wireless-client-oper:client-oper-data/common-oper-data=aa:bb:cc:dd:ee:ff"].
Proof. repeat split. Qed.

(** * Beyond the claims *)

(** ** Which exceptions reach the caller *)






(** ** A retry count of zero or less *)

(** X2.  With [retry] at zero or below the loop has no turn: every operation
    answers in the negative at once, after the error message, and the device
    has not been asked anything. *)
Theorem no_retry_no_request :
  forall net self op req w,
    retry self <= 0 ->
    own_request self op = Ok req ->
    exists w',
      perform net self op w = (Ok (negative_result op), w')
      /\ calls w' = calls w
      /\ hd_error (logs w')
         = Some (mk_entry (logger_name (_logger self)) ERROR
                   (failed_message (op_name op) self)).
Proof.
  intros net self op req w Hr Hreq.
  destruct (perform_exhausted net self op req w Hreq) as [w' [Hp [Hc Hl]]].
  { intros j Hj. lia. }
  exists w'. split; [exact Hp|]. split; [|exact Hl].
  rewrite Hc. replace (Z.to_nat (retry self)) with 0%nat by lia. reflexivity.
Qed.

Lemma no_retry_no_request_witness :
  exists w',
    perform one_client
      (mk_IosXeWlc "wlc1" "admin" "secret" None 5 0 (_logger wlc1)) Test fresh
    = (Ok (VBool false), w')
    /\ calls w' = []
    /\ hd_error (logs w')
       = Some (mk_entry "IOS-XE-WLC(wlc1)" ERROR
                 "Test Failed! Tried 1 times. Timeout is 5. Check credentials and host and try again.").
Proof.
  apply (no_retry_no_request one_client
           (mk_IosXeWlc "wlc1" "admin" "secret" None 5 0 (_logger wlc1)) Test
           (get_request wlc1 (test_url wlc1)) fresh).
  - simpl; lia.
  - reflexivity.
Defined.

(** ** When [test] says yes *)

Lemma first_success_or_none (f : nat -> bool) n :
  (forall j, (j < n)%nat -> f j = true)
  \/ (exists k, (k < n)%nat /\ (forall j, (j < k)%nat -> f j = true) /\ f k = false).
Proof.
  induction n as [|n [IH|[k [Hk [Hb Hf]]]]].
  - left. intros j Hj. lia.
  - destruct (f n) eqn:Hn.
    + left. intros j Hj. destruct (Nat.eq_dec j n) as [->|]; [exact Hn|].
      apply IH. lia.
    + right. exists n. repeat split; auto.
  - right. exists k. repeat split; auto.
Qed.

Lemma test_of_perform net self w b w' :
  perform net self Test w = (Ok (VBool b), w') -> test net self w = (Ok b, w').
Proof.
  simpl. unfold bind. destruct (test net self w) as [[b0|e] w0]; unfold ret;
    intros H; [injection H as <- <-; reflexivity | discriminate].
Qed.

(** X3.  [test] returns [True] exactly when one of its [retry] attempts is
    answered 200, the attempts before it having met an exception or another
    status; the body of the answer plays no part.  It then has sent as many
    requests as it took. *)
Theorem test_true_iff_answered_200 :
  forall net self w,
    let req := get_request self (test_url self) in
    fst (test net self w) = Ok true
    <-> exists k,
          (k < Z.to_nat (retry self))%nat
          /\ (forall j, (j < k)%nat ->
                outcome_fails (attempt_outcome net req w j) = true)
          /\ (exists r, attempt_outcome net req w k = Responds r
                        /\ status_code r = 200)
          /\ calls (snd (test net self w)) = (repeat req (S k) ++ calls w)%list.
Proof.
  intros net self w req.
  destruct (first_success_or_none
              (fun j => outcome_fails (attempt_outcome net req w j))
              (Z.to_nat (retry self))) as [Hall|[k [Hk [Hb Hf]]]].
  - destruct (perform_exhausted net self Test req w eq_refl Hall)
      as [w' [Hp _]].
    apply test_of_perform in Hp. rewrite Hp. split; [discriminate|].
    intros [k [Hk [_ [[r [Hr Hs]] _]]]].
    specialize (Hall k Hk). rewrite Hr in Hall. simpl in Hall.
    rewrite Hs in Hall. discriminate.
  - destruct (attempt_outcome net req w k) as [r|e] eqn:Hr; [|discriminate].
    simpl in Hf. apply negb_false_iff, Z.eqb_eq in Hf.
    destruct (perform_returns net self Test req w k r (VBool true) eq_refl Hk Hb
                Hr Hf eq_refl (or_introl eq_refl)) as [w' [Hp Hc]].
    apply test_of_perform in Hp. rewrite Hp. simpl. split; [|reflexivity].
    intros _. exists k. repeat split; eauto.
Qed.

Lemma test_true_iff_answered_200_witness :
  fst (test third_time_lucky wlc1 fresh) = Ok true.
Proof.
  apply (proj2 (test_true_iff_answered_200 third_time_lucky wlc1 fresh)).
  exists 2%nat. split; [simpl; lia|]. split.
  - intros j Hj. destruct j as [|[|j]]; [reflexivity | reflexivity | lia].
  - split; [eexists; split; reflexivity | reflexivity].
Defined.

(** ** How many requests, and where to *)

Section Counting.

Variable f : world -> nat.

(** A turn of a loop: one request, then code that does not count. *)
Lemma turn_counts_one {A B} (m : M A) (k : A -> M B) (h : exn -> M B) :
  (forall w, f (snd (m w)) = S (f w)) ->
  (forall a, preserves f (k a)) ->
  (forall e, preserves f (h e)) ->
  forall w, f (snd (catch (bind m k) h w)) = S (f w).
Proof.
  intros Hm Hk Hh w. unfold catch, bind. specialize (Hm w).
  destruct (m w) as [[a|e] w1]; simpl in *.
  - specialize (Hk a w1). destruct (k a w1) as [[b|e] w2]; simpl in *.
    + lia.
    + rewrite Hh. lia.
  - rewrite Hh. exact Hm.
Qed.

Lemma for_range_counts {A} (body : Z -> M (option A)) orelse :
  (forall i w, f (snd (body i w)) = S (f w)) ->
  preserves f orelse ->
  forall n i w,
    (f w + (if Nat.eqb n 0 then 0 else 1)
     <= f (snd (for_range n i body orelse w)) <= f w + n)%nat.
Proof.
  intros Hb Ho. induction n as [|n IH]; intros i w; simpl for_range.
  - rewrite Ho. simpl. lia.
  - unfold bind. specialize (Hb i w).
    destruct (body i w) as [[[a|]|e] w1]; simpl in *; try lia.
    specialize (IH (i + 1) w1). destruct (Nat.eqb n 0); lia.
Qed.

End Counting.

Lemma preserves_sent_any_log lg lvl msg : preserves requests_sent (log lg lvl msg).
Proof. intros w. reflexivity. Qed.

Lemma requests_get_counts net r w :
  requests_sent (snd (requests_get net r w)) = S (requests_sent w).
Proof. unfold requests_get. destruct (net (r :: calls w)); reflexivity. Qed.

Lemma requests_get_counts_own net r w :
  sent_to (url r) (snd (requests_get net r w)) = S (sent_to (url r) w).
Proof.
  unfold requests_get, sent_to.
  destruct (net (r :: calls w)); simpl; rewrite String.eqb_refl; reflexivity.
Qed.

Ltac quiet_step lem :=
  first [ apply preserves_ret | apply preserves_lift | apply lem
        | apply preserves_bind ].

Section Requests.

Variable net : transport.
Variable self : IosXeWlc.

Lemma test_try_counts i w :
  requests_sent (snd (test_try net self i w)) = S (requests_sent w).
Proof.
  unfold test_try. apply turn_counts_one.
  - apply requests_get_counts.
  - intros resp. split_on_status;
      repeat (quiet_step preserves_sent_any_log; intros).
  - intros e. repeat (quiet_step preserves_sent_any_log; intros).
Qed.

Lemma get_client_addresses_try_counts client i w :
  requests_sent (snd (get_client_addresses_try net self client i w))
  = S (requests_sent w).
Proof.
  unfold get_client_addresses_try. apply turn_counts_one.
  - apply requests_get_counts.
  - intros resp. split_on_status;
      repeat (quiet_step preserves_sent_any_log; intros).
  - intros e. repeat (quiet_step preserves_sent_any_log; intros).
Qed.

Lemma get_clients_try_counts client i w :
  requests_sent (snd (get_clients_try net self client false i w))
  = S (requests_sent w).
Proof.
  unfold get_clients_try, get_ip_info_block. apply turn_counts_one.
  - apply requests_get_counts.
  - intros resp. split_on_status;
      repeat (quiet_step preserves_sent_any_log; intros).
  - intros e. repeat (quiet_step preserves_sent_any_log; intros).
Qed.

Lemma get_clients_try_counts_own client get_ip_info i w :
  sent_to (clients_url self client)
    (snd (get_clients_try net self client get_ip_info i w))
  = S (sent_to (clients_url self client) w).
Proof.
  unfold get_clients_try. apply turn_counts_one.
  - intros w0.
    apply (requests_get_counts_own net
             (get_request self (clients_url self client)) w0).
  - intros resp. split_on_status.
    + repeat (apply preserves_bind; [apply preserves_lift|]; intros).
      apply preserves_bind; [apply preserves_sent_log|]. intros _.
      apply preserves_bind; [|intros; apply preserves_ret].
      unfold get_ip_info_block. destruct get_ip_info; [|apply preserves_ret].
      apply preserves_bind; [apply preserves_lift|]. intros items.
      apply preserves_bind; [apply add_ip_info_keeps_sent|].
      intros; apply preserves_ret.
    + apply preserves_bind; [apply preserves_sent_log|].
      intros; apply preserves_ret.
  - intros e. apply preserves_bind; [apply preserves_sent_log|].
    intros; apply preserves_ret.
Qed.

Variable P : request -> Prop.

Lemma sends_test_to :
  P (get_request self (test_url self)) -> sends P (test net self).
Proof.
  intros HP. unfold test, test_try. repeat (sends_step; intros).
  - apply sends_requests_get, HP.
  - split_on_status; repeat (sends_step; intros).
Qed.

Lemma sends_addresses_loop_to client n i :
  P (get_request self (addresses_url self client)) ->
  sends P (get_client_addresses_loop net self client n i).
Proof.
  intros HP. unfold get_client_addresses_loop, get_client_addresses_try.
  repeat (sends_step; intros).
  - apply sends_requests_get, HP.
  - split_on_status; repeat (sends_step; intros).
Qed.

Lemma sends_get_client_addresses_to mac :
  (forall c, P (get_request self (addresses_url self c))) ->
  sends P (get_client_addresses net self mac).
Proof.
  intros HP. unfold get_client_addresses.
  apply sends_bind; [apply sends_lift|]. intros c.
  apply sends_bind; [apply sends_log|]. intros _.
  apply sends_addresses_loop_to, HP.
Qed.

Lemma sends_add_ip_info_to items :
  (forall c, P (get_request self (addresses_url self c))) ->
  sends P (add_ip_info net self items).
Proof.
  intros HP. induction items as [|client_obj rest IH]; simpl; [apply sends_ret|].
  apply sends_bind; [apply sends_lift|]. intros mac.
  apply sends_bind; [apply sends_get_client_addresses_to, HP|]. intros ip_addr.
  apply sends_bind; [apply sends_lift|]. intros client_obj'.
  apply sends_bind; [exact IH|]. intros rest'. apply sends_ret.
Qed.

Lemma sends_clients_loop_to client get_ip_info n i :
  P (get_request self (clients_url self client)) ->
  (get_ip_info = true -> forall c, P (get_request self (addresses_url self c))) ->
  sends P (get_clients_loop net self client get_ip_info n i).
Proof.
  intros HP HQ. unfold get_clients_loop, get_clients_try.
  repeat (sends_step; intros).
  - apply sends_requests_get, HP.
  - split_on_status; repeat (sends_step; intros).
    unfold get_ip_info_block. destruct get_ip_info; [|apply sends_ret].
    apply sends_bind; [apply sends_lift|]. intros items.
    apply sends_bind; [apply sends_add_ip_info_to, HQ; reflexivity|].
    intros. apply sends_ret.
Qed.

End Requests.

Ltac count_loop Hbody :=
  match goal with
  | |- context [for_range ?n ?i ?b ?o ?w0] =>
      let Ho := fresh "Ho" in
      assert (Ho : preserves requests_sent o)
        by (repeat (quiet_step preserves_sent_any_log; intros));
      exact (for_range_counts requests_sent b o Hbody Ho n i w0)
  end.

Lemma snd_bind_ret {A B} (m : M A) (g : A -> B) w :
  snd ((a <- m ;; ret (g a)) w) = snd (m w).
Proof. unfold bind, ret. destruct (m w) as [[a|e] w1]; reflexivity. Qed.

Lemma all_the_same {A} (x : A) l :
  Forall (fun y => y = x) l -> l = repeat x (List.length l).
Proof.
  induction 1 as [|y l -> _ IH]; simpl; [reflexivity|]. rewrite <- IH. reflexivity.
Qed.

(** X4.  One request, sent again and again, [retry] times at most: [test],
    [get_client_addresses], and [get_clients] with the lookups off send
    nothing but their own request, the same each time (same URL, credentials,
    timeout, verification and header), at least once when [retry] is
    positive and never more than [retry] times. *)
Theorem at_most_retry_requests :
  forall net self op req w,
    without_lookups op = true ->
    own_request self op = Ok req ->
    exists k,
      (k <= Z.to_nat (retry self))%nat
      /\ (0 < retry self -> (1 <= k)%nat)
      /\ calls (snd (perform net self op w)) = (repeat req k ++ calls w)%list.
Proof.
  intros net self op req w Hop Hreq.
  assert (Hsend : sends (fun r => r = req) (perform net self op)
                  /\ (requests_sent w
                      + (if Nat.eqb (Z.to_nat (retry self)) 0 then 0 else 1)
                      <= requests_sent (snd (perform net self op w))
                      <= requests_sent w + Z.to_nat (retry self))%nat).
  { destruct op as [|client g|client].
    - injection Hreq as <-. split.
      + simpl. apply sends_bind; [|intros; apply sends_ret].
        apply sends_test_to. reflexivity.
      + simpl perform. rewrite snd_bind_ret.
        unfold test. unfold bind at 1, log at 1.
        count_loop (test_try_counts net self).
    - destruct (own_request_clients _ _ _ _ Hreq) as [c [Hc ->]].
      simpl in Hop. destruct g; [discriminate|]. simpl perform.
      unfold get_clients. split.
      + intros w0. unfold bind at 1, lift at 1. rewrite Hc.
        unfold bind at 1, log at 1.
        match goal with
        | |- context [get_clients_loop net self c false ?n ?i ?w1] =>
            exact (sends_clients_loop_to net self (fun r => r = _) c false n i
                     eq_refl ltac:(discriminate) w1)
        end.
      + unfold bind at 1, lift at 1. rewrite Hc. unfold bind at 1, log at 1.
        unfold get_clients_loop.
        count_loop (get_clients_try_counts net self c).
    - destruct (own_request_addresses _ _ _ Hreq) as [c [Hc ->]].
      simpl perform. unfold get_client_addresses. split.
      + intros w0. unfold bind at 1, lift at 1. rewrite Hc.
        unfold bind at 1, log at 1.
        match goal with
        | |- context [get_client_addresses_loop net self c ?n ?i ?w1] =>
            exact (sends_addresses_loop_to net self (fun r => r = _) c n i
                     eq_refl w1)
        end.
      + unfold bind at 1, lift at 1. rewrite Hc. unfold bind at 1, log at 1.
        unfold get_client_addresses_loop.
        count_loop (get_client_addresses_try_counts net self c). }
  destruct Hsend as [Hs Hn]. destruct (Hs w) as [new [Hc Hall]].
  exists (List.length new). unfold requests_sent in Hn.
  rewrite Hc, length_app in Hn. split; [lia|]. split.
  - intros Hr. destruct (Nat.eqb_spec (Z.to_nat (retry self)) 0); lia.
  - rewrite Hc. f_equal. apply all_the_same. exact Hall.
Qed.

Lemma at_most_retry_requests_witness :
  exists k,
    (k <= 3)%nat /\ (0 < 3 -> (1 <= k)%nat)
    /\ calls (snd (perform one_client wlc1
                     (GetClientAddresses (VStr "aabb.ccdd.eeff")) fresh))
       = (repeat (get_request wlc1 (addresses_url wlc1 (Some "aa:bb:cc:dd:ee:ff"))) k
          ++ [])%list.
Proof.
  apply (at_most_retry_requests one_client wlc1
           (GetClientAddresses (VStr "aabb.ccdd.eeff")) _ fresh).
  - reflexivity.
  - reflexivity.
Defined.

(** X5.  [get_clients], lookups on or off, asks for the client list at most
    [retry] times, and whatever else it sends is the address request of a
    lookup: nothing goes to another URL, and every request carries the
    credentials, timeout, verification and header of the instance. *)
Theorem get_clients_requests :
  forall net self client c get_ip_info w,
    check_client client = Ok c ->
    let w' := snd (get_clients net self client get_ip_info w) in
    extends (clients_or_lookup self c) w w'
    /\ (sent_to (clients_url self c) w' <= sent_to (clients_url self c) w
                                          + Z.to_nat (retry self))%nat
    /\ (0 < retry self ->
        (sent_to (clients_url self c) w < sent_to (clients_url self c) w')%nat).
Proof.
  intros net self client c g w Hc w'. subst w'.
  set (w1 := mk_world (calls w)
               (mk_entry (logger_name (_logger self)) DEBUG
                  ("Starting GET_CLIENTS for " ++ who c ++ "...") :: logs w)).
  assert (Heq : get_clients net self client g w
                = get_clients_loop net self c g (Z.to_nat (retry self)) 0 w1).
  { unfold get_clients. unfold bind at 1, lift at 1. rewrite Hc. reflexivity. }
  rewrite Heq.
  pose proof (sends_clients_loop_to net self (clients_or_lookup self c) c g
                (Z.to_nat (retry self)) 0 (or_introl eq_refl)
                (fun _ c' => or_intror (ex_intro _ c' eq_refl)) w1) as Hs.
  assert (Ho : preserves (sent_to (clients_url self c))
                 (log (_logger self) ERROR (failed_message "GET_CLIENTS" self) ;;
                  ret (VList []))).
  { apply preserves_bind; [apply preserves_sent_log|].
    intros; apply preserves_ret. }
  pose proof (for_range_counts (sent_to (clients_url self c))
                (get_clients_try net self c g) _
                (get_clients_try_counts_own net self c g) Ho
                (Z.to_nat (retry self)) 0 w1) as Hn.
  fold (get_clients_loop net self c g (Z.to_nat (retry self)) 0) in Hn.
  change (sent_to (clients_url self c) w1)
    with (sent_to (clients_url self c) w) in Hn.
  split; [exact Hs|].
  split; [lia|]. intros Hr.
  destruct (Nat.eqb_spec (Z.to_nat (retry self)) 0); lia.
Qed.

Lemma get_clients_requests_witness :
  let w' := snd (get_clients one_client wlc1 (VStr "AA:BB:CC:DD:EE:FF") true fresh) in
  extends (clients_or_lookup wlc1 (Some "aa:bb:cc:dd:ee:ff")) fresh w'
  /\ (sent_to (clients_url wlc1 (Some "aa:bb:cc:dd:ee:ff")) w' <= 0 + 3)%nat
  /\ (0 < 3 -> (0 < sent_to (clients_url wlc1 (Some "aa:bb:cc:dd:ee:ff")) w')%nat).
Proof.
  apply (get_clients_requests one_client wlc1 (VStr "AA:BB:CC:DD:EE:FF")
           (Some "aa:bb:cc:dd:ee:ff") true fresh).
  reflexivity.
Defined.

(** ** Where a returned list comes from *)

Lemma for_range_result {A} (body : Z -> M (option A)) orelse n :
  forall i w a w',
    for_range n i body orelse w = (Ok a, w') ->
    (exists w1, orelse w1 = (Ok a, w'))
    \/ (exists j w1, body j w1 = (Ok (Some a), w')).
Proof.
  induction n as [|n IH]; intros i w a w' H; simpl in H; [eauto|].
  unfold bind in H. destruct (body i w) as [[[b|]|e] w1] eqn:Hb.
  - unfold ret in H. injection H as <- <-. right. eauto.
  - eapply IH. exact H.
  - discriminate.
Qed.

Section Provenance.

Variable net : transport.
Variable self : IosXeWlc.

Lemma get_client_addresses_try_some client i w v w' :
  get_client_addresses_try net self client i w = (Ok (Some v), w') ->
  carried net addresses_key v w'.
Proof.
  unfold get_client_addresses_try, carried. unfold_monad.
  destruct (net (get_request self (addresses_url self client) :: calls w))
    as [r|e] eqn:Hn; [|discriminate].
  destruct (status_code r =? 200) eqn:Hs; [|discriminate].
  apply Z.eqb_eq in Hs.
  destruct (json r) as [body|e] eqn:Hj; [|discriminate].
  destruct body; simpl; try discriminate.
  destruct (py_len _) as [n|e]; [|discriminate].
  intros H. injection H as <- <-. simpl. eauto 10.
Qed.

Lemma get_clients_try_some client i w v w' :
  get_clients_try net self client false i w = (Ok (Some v), w') ->
  carried net clients_key v w'.
Proof.
  unfold get_clients_try, get_ip_info_block, carried. unfold_monad.
  destruct (net (get_request self (clients_url self client) :: calls w))
    as [r|e] eqn:Hn; [|discriminate].
  destruct (status_code r =? 200) eqn:Hs; [|discriminate].
  apply Z.eqb_eq in Hs.
  destruct (json r) as [body|e] eqn:Hj; [|discriminate].
  destruct body; simpl; try discriminate.
  destruct (py_len _) as [n|e]; [|discriminate].
  intros H. injection H as <- <-. simpl. eauto 10.
Qed.

End Provenance.

(** X6.  A listing without lookups makes nothing up: what it returns is the empty
    list of a loop that ran out, the error message being the last thing
    logged, or else exactly what the answer to the last request it sent
    carries under the envelope key. *)
Theorem listing_returns_what_was_answered :
  forall net self op key w v w',
    envelope_key op = Some key ->
    without_lookups op = true ->
    perform net self op w = (Ok v, w') ->
    (v = VList []
     /\ hd_error (logs w')
        = Some (mk_entry (logger_name (_logger self)) ERROR
                  (failed_message (op_name op) self)))
    \/ carried net key v w'.
Proof.
  intros net self op key w v w' Hkey Hop H.
  destruct op as [|client g|client]; [discriminate Hkey| |];
    injection Hkey as <-; simpl in Hop, H.
  - destruct g; [discriminate Hop|].
    unfold get_clients in H. unfold bind at 1, lift at 1 in H.
    destruct (check_client client) as [c|e]; [|discriminate].
    unfold bind at 1, log at 1 in H. unfold get_clients_loop in H.
    apply for_range_result in H. destruct H as [[w1 H]|[j [w1 H]]].
    + left. unfold bind, log, ret in H. injection H as <- <-.
      split; reflexivity.
    + right. eapply get_clients_try_some. exact H.
  - unfold get_client_addresses in H. unfold bind at 1, lift at 1 in H.
    destruct (check_client client) as [c|e]; [|discriminate].
    unfold bind at 1, log at 1 in H. unfold get_client_addresses_loop in H.
    apply for_range_result in H. destruct H as [[w1 H]|[j [w1 H]]].
    + left. unfold bind, log, ret in H. injection H as <- <-.
      split; reflexivity.
    + right. eapply get_client_addresses_try_some. exact H.
Qed.

Lemma listing_returns_what_was_answered_witness :
  (VList [VDict [("ipv4", VStr "10.0.0.7")]] = VList []
   /\ hd_error
        (logs (snd (perform one_client wlc1 (GetClientAddresses VNone) fresh)))
      = Some (mk_entry (logger_name (_logger wlc1)) ERROR
                (failed_message "GET_CLIENT_ADDRESSES" wlc1)))
  \/ carried one_client addresses_key (VList [VDict [("ipv4", VStr "10.0.0.7")]])
       (snd (perform one_client wlc1 (GetClientAddresses VNone) fresh)).
Proof.
  apply (listing_returns_what_was_answered one_client wlc1
           (GetClientAddresses VNone) addresses_key fresh).
  - reflexivity.
  - reflexivity.
  - reflexivity.
Defined.

(** ** What the check of a MAC address accepts *)

Lemma is_hex_char_inv a : is_hex_char a = true -> exists d, a = lower_hex d.
Proof.
  intros H. unfold is_hex_char in H. apply existsb_exists in H.
  destruct H as [x [Hin Heq]]. apply Ascii.eqb_eq in Heq. subst x.
  simpl in Hin.
  repeat (destruct Hin as [<-|Hin];
          [first [ exists H0; reflexivity | exists H1; reflexivity
                 | exists H2; reflexivity | exists H3; reflexivity
                 | exists H4; reflexivity | exists H5; reflexivity
                 | exists H6; reflexivity | exists H7; reflexivity
                 | exists H8; reflexivity | exists H9; reflexivity
                 | exists HA; reflexivity | exists HB; reflexivity
                 | exists HC; reflexivity | exists HD; reflexivity
                 | exists HE; reflexivity | exists HF; reflexivity ]|]).
  contradiction.
Qed.

Lemma check_client_inv s m :
  check_client (VStr s) = Ok m ->
  len (lower (strip_separators s)) = 12
  /\ first_invalid (lower (strip_separators s)) = None
  /\ m = Some (format_mac (lower (strip_separators s))).
Proof.
  unfold check_client.
  destruct (len (lower (strip_separators s)) =? 12) eqn:Hl; simpl;
    [|discriminate].
  destruct (first_invalid (lower (strip_separators s))) eqn:Hf; [discriminate|].
  intros H. injection H as <-. apply Z.eqb_eq in Hl. auto.
Qed.

(** Twelve accepted characters are the digits of six bytes. *)
Lemma twelve_hex_digits c :
  len c = 12 -> first_invalid c = None ->
  exists os, List.length os = 6%nat /\ c = plain os
             /\ format_mac c = canonical os.
Proof.
  unfold len. intros Hl Hf.
  assert (Hn : String.length c = 12%nat) by lia. clear Hl.
  destruct c as [|a1 c]; [discriminate|]. simpl in Hf.
  destruct (is_hex_char a1) eqn:E1; [|discriminate].
  apply is_hex_char_inv in E1. destruct E1 as [d1 ->].
  destruct c as [|a2 c]; [discriminate|]. simpl in Hf.
  destruct (is_hex_char a2) eqn:E2; [|discriminate].
  apply is_hex_char_inv in E2. destruct E2 as [d2 ->].
  destruct c as [|a3 c]; [discriminate|]. simpl in Hf.
  destruct (is_hex_char a3) eqn:E3; [|discriminate].
  apply is_hex_char_inv in E3. destruct E3 as [d3 ->].
  destruct c as [|a4 c]; [discriminate|]. simpl in Hf.
  destruct (is_hex_char a4) eqn:E4; [|discriminate].
  apply is_hex_char_inv in E4. destruct E4 as [d4 ->].
  destruct c as [|a5 c]; [discriminate|]. simpl in Hf.
  destruct (is_hex_char a5) eqn:E5; [|discriminate].
  apply is_hex_char_inv in E5. destruct E5 as [d5 ->].
  destruct c as [|a6 c]; [discriminate|]. simpl in Hf.
  destruct (is_hex_char a6) eqn:E6; [|discriminate].
  apply is_hex_char_inv in E6. destruct E6 as [d6 ->].
  destruct c as [|a7 c]; [discriminate|]. simpl in Hf.
  destruct (is_hex_char a7) eqn:E7; [|discriminate].
  apply is_hex_char_inv in E7. destruct E7 as [d7 ->].
  destruct c as [|a8 c]; [discriminate|]. simpl in Hf.
  destruct (is_hex_char a8) eqn:E8; [|discriminate].
  apply is_hex_char_inv in E8. destruct E8 as [d8 ->].
  destruct c as [|a9 c]; [discriminate|]. simpl in Hf.
  destruct (is_hex_char a9) eqn:E9; [|discriminate].
  apply is_hex_char_inv in E9. destruct E9 as [d9 ->].
  destruct c as [|a10 c]; [discriminate|]. simpl in Hf.
  destruct (is_hex_char a10) eqn:E10; [|discriminate].
  apply is_hex_char_inv in E10. destruct E10 as [d10 ->].
  destruct c as [|a11 c]; [discriminate|]. simpl in Hf.
  destruct (is_hex_char a11) eqn:E11; [|discriminate].
  apply is_hex_char_inv in E11. destruct E11 as [d11 ->].
  destruct c as [|a12 c]; [discriminate|]. simpl in Hf.
  destruct (is_hex_char a12) eqn:E12; [|discriminate].
  apply is_hex_char_inv in E12. destruct E12 as [d12 ->].
  destruct c as [|a13 c]; [|discriminate].
  exists [(d1, d2); (d3, d4); (d5, d6); (d7, d8); (d9, d10); (d11, d12)].
  repeat split.
Qed.

Lemma accepted_is_canonical s m :
  check_client (VStr s) = Ok m ->
  exists os, List.length os = 6%nat
             /\ lower (strip_separators s) = plain os
             /\ m = Some (canonical os).
Proof.
  intros H. destruct (check_client_inv s m H) as [Hl [Hf ->]].
  destruct (twelve_hex_digits _ Hl Hf) as [os [Hn [Hp Hc]]].
  exists os. rewrite Hc. auto.
Qed.

Lemma canonical_is_a_spelling os :
  canonical os
  = spelling Colons (map (fun o => ((fst o, false), (snd o, false))) os).
Proof.
  unfold canonical, spelling. rewrite map_map. reflexivity.
Qed.

Lemma canonical_accepted os :
  List.length os = 6%nat ->
  check_client (VStr (canonical os)) = Ok (Some (canonical os)).
Proof.
  intros Hn. apply check_client_accepts; [exact Hn|].
  rewrite canonical_is_a_spelling, normal_form_spelling, map_map.
  f_equal. rewrite <- (map_id os) at 2. apply map_ext.
  intros [a b]. reflexivity.
Qed.

(** X7.  The check accepts a string exactly when, its separators stripped and in
    lower case, it is the twelve hex digits of six bytes, wherever the
    separators stood; the result is then those bytes in canonical form.  A
    string never comes out as "no filter". *)
Theorem mac_accepted_iff :
  forall s,
    (forall m,
       check_client (VStr s) = Ok (Some m)
       <-> exists os, List.length os = 6%nat
                      /\ lower (strip_separators s) = plain os
                      /\ m = canonical os)
    /\ check_client (VStr s) <> Ok None.
Proof.
  intros s. split.
  - intros m. split.
    + intros H. destruct (accepted_is_canonical s _ H) as [os [Hn [Hp Hm]]].
      injection Hm as ->. eauto.
    + intros [os [Hn [Hp ->]]]. apply check_client_accepts; assumption.
  - intros H. destruct (accepted_is_canonical s _ H) as [os [_ [_ Hm]]].
    discriminate.
Qed.

Lemma mac_accepted_iff_witness :
  check_client (VStr "AABB.ccdd.EEFF") = Ok (Some "aa:bb:cc:dd:ee:ff").
Proof.
  apply (proj2 (proj1 (mac_accepted_iff "AABB.ccdd.EEFF") "aa:bb:cc:dd:ee:ff")).
  exists [(HA, HA); (HB, HB); (HC, HC); (HD, HD); (HE, HE); (HF, HF)].
  repeat split.
Defined.

(** X8.  What the check returns it accepts, and returns unchanged: the canonical
    form is a fixed point, 17 characters long. *)
Theorem canonical_form_is_a_fixed_point :
  forall s m,
    check_client (VStr s) = Ok (Some m) ->
    check_client (VStr m) = Ok (Some m) /\ String.length m = 17%nat.
Proof.
  intros s m H. destruct (accepted_is_canonical s _ H) as [os [Hn [_ Hm]]].
  injection Hm as ->. split; [apply canonical_accepted; exact Hn|].
  destruct os as [|[a1 b1] [|[a2 b2] [|[a3 b3] [|[a4 b4] [|[a5 b5]
    [|[a6 b6] [|? ?]]]]]]]; try discriminate Hn.
  reflexivity.
Qed.

Lemma canonical_form_is_a_fixed_point_witness :
  check_client (VStr "aa:bb:cc:dd:ee:ff") = Ok (Some "aa:bb:cc:dd:ee:ff")
  /\ String.length "aa:bb:cc:dd:ee:ff" = 17%nat.
Proof.
  apply (canonical_form_is_a_fixed_point "AA-BB-CC-DD-EE-FF"). reflexivity.
Defined.

(** ** What the lookups do to a record *)

Lemma dict_get_set_other k key v d :
  k <> key -> dict_get k (dict_set key v d) = dict_get k d.
Proof.
  intros Hk. induction d as [|[k0 x] d IH]; simpl.
  - destruct (String.eqb_spec key k); [congruence | reflexivity].
  - destruct (String.eqb_spec k0 key) as [->|Hne]; simpl.
    + destruct (String.eqb_spec key k); [congruence | reflexivity].
    + destruct (String.eqb_spec k0 k); [reflexivity | exact IH].
Qed.

Lemma dict_set_keys key v d :
  map fst (dict_set key v d)
  = match dict_get key d with
    | Some _ => map fst d
    | None => (map fst d ++ [key])%list
    end.
Proof.
  induction d as [|[k0 x] d IH]; simpl; [reflexivity|].
  destruct (String.eqb k0 key); simpl; [reflexivity|].
  rewrite IH. destruct (dict_get key d); reflexivity.
Qed.

Lemma set_ip_addr_same_but d a :
  same_but_ip_addr (VDict d) (VDict (dict_set "ip_addr" a d)).
Proof.
  exists d, (dict_set "ip_addr" a d). repeat split.
  - intros k Hk. apply dict_get_set_other. exact Hk.
  - exists a. apply dict_get_set.
  - apply dict_set_keys.
Qed.

Lemma enriched_same_but net self w items items' w' :
  enriched net self w items items' w' ->
  Forall2 same_but_ip_addr items items'.
Proof.
  induction 1; constructor; auto. apply set_ip_addr_same_but.
Qed.

Lemma get_client_addresses_ok_check net self mac w v w' :
  get_client_addresses net self mac w = (Ok v, w') ->
  exists c, check_client mac = Ok c.
Proof.
  unfold get_client_addresses. unfold bind at 1, lift at 1.
  destruct (check_client mac) as [c|e]; [eauto | discriminate].
Qed.

Lemma enriched_good net self w items items' w' :
  enriched net self w items items' w' ->
  Forall (fun x => good_record x = true) items.
Proof.
  induction 1 as [|w d mac ip_addr w1 rest rest' w2 Hd Ha _ IH]; constructor; auto.
  simpl. rewrite Hd.
  destruct (get_client_addresses_ok_check _ _ _ _ _ _ Ha) as [c ->]. reflexivity.
Qed.

(** X9.  With the lookups on, a turn of [get_clients] answered 200 with an array
    returns exactly when every record of the array is an object whose
    [client-mac] is null or a MAC address the check accepts; otherwise it
    asks for the next turn.  One record out of order, of whatever kind (not
    an object, no [client-mac], a number for a MAC), costs the whole list. *)
Theorem attempt_returns_iff_records_good :
  forall net self client i w r records,
    net (get_request self (clients_url self client) :: calls w) = Responds r ->
    status_code r = 200 ->
    envelope clients_key r = Some records ->
    ((exists v w', get_clients_try net self client true i w = (Ok (Some v), w'))
     <-> Forall (fun x => good_record x = true) records)
    /\ ((exists w', get_clients_try net self client true i w = (Ok None, w'))
        <-> ~ Forall (fun x => good_record x = true) records).
Proof.
  intros net self client i w r records H Hs He.
  rewrite (get_clients_try_with_records net self client i w r records H Hs He).
  destruct (add_ip_info net self records (lookups_begin self client i r records w))
    as [[items'|e] w2] eqn:Ha.
  - pose proof (enriched_good _ _ _ _ _ _ (add_ip_info_enriched _ _ _ _ _ _ Ha))
      as Hg.
    split; split.
    + intros _. exact Hg.
    + intros _. eauto.
    + intros [w' Hx]. discriminate.
    + intros Hn. contradiction.
  - assert (Hn : ~ Forall (fun x => good_record x = true) records).
    { intros Hg.
      destruct (add_ip_info_returns net self records Hg
                  (lookups_begin self client i r records w)) as [it [w3 Hx]].
      rewrite Hx in Ha. discriminate. }
    split; split.
    + intros [v [w' Hx]]. discriminate.
    + intros Hg. contradiction.
    + intros _. exact Hn.
    + intros _. eauto.
Qed.

Lemma attempt_returns_iff_records_good_witness :
  exists w', get_clients_try one_bad_record wlc1 None true 0 fresh = (Ok None, w').
Proof.
  apply (proj2 (proj2 (attempt_returns_iff_records_good one_bad_record wlc1 None 0
                         fresh _ _ eq_refl eq_refl eq_refl))).
  intros Hg. inversion Hg as [|x l _ Hg']. inversion Hg' as [|y l' Hy _].
  discriminate Hy.
Defined.

Lemma add_ip_info_cons_nil net self w :
  add_ip_info net self [] w = (Ok [], w).
Proof. reflexivity. Qed.

(** A turn of [get_clients] that returns, lookups on: it was answered 200
    with an object, and returns what stands under the key after the
    lookups. *)
Lemma get_clients_try_true_some net self client i w v w' :
  get_clients_try net self client true i w = (Ok (Some v), w') ->
  exists r d w1,
    net (get_request self (clients_url self client) :: calls w) = Responds r
    /\ status_code r = 200
    /\ json r = Ok (VDict d)
    /\ match dict_get clients_key d with
       | Some (VList records) =>
           exists records',
             v = VList records' /\ enriched net self w1 records records' w'
       | Some sent => v = sent
       | None => v = VList []
       end.
Proof.
  unfold get_clients_try. unfold catch, bind at 1, requests_get.
  destruct (net (get_request self (clients_url self client) :: calls w))
    as [r|e] eqn:Hn; [|unfold_monad; discriminate].
  destruct (status_code r =? 200) eqn:Hs; [|unfold_monad; discriminate].
  apply Z.eqb_eq in Hs.
  unfold bind at 1, lift at 1.
  destruct (json r) as [body|e] eqn:Hj; [|unfold_monad; discriminate].
  unfold bind at 1, lift at 1.
  destruct body; simpl py_get; try (unfold_monad; discriminate).
  unfold bind at 1, lift at 1.
  destruct (py_len _) as [n|e] eqn:Hl; [|unfold_monad; discriminate].
  unfold bind at 1, log at 1. unfold bind at 1.
  unfold get_ip_info_block. unfold bind at 1, lift at 1.
  destruct (py_iter _) as [items|e] eqn:Hi; [|unfold_monad; discriminate].
  unfold bind at 1.
  match goal with
  | |- context [add_ip_info net self items ?w0] =>
      destruct (add_ip_info net self items w0) as [[items'|e] w2] eqn:Ha;
      [|unfold_monad; discriminate]
  end.
  unfold ret. intros H. injection H as <- <-.
  exists r, fields. eexists. repeat (split; [eassumption || reflexivity|]).
  destruct (dict_get clients_key fields) as [sent|].
  - destruct sent; try reflexivity.
    simpl in Hi. injection Hi as <-.
    exists items'. split; [reflexivity|].
    apply add_ip_info_enriched. exact Ha.
  - simpl in Hi. injection Hi as <-.
    rewrite add_ip_info_cons_nil in Ha. injection Ha as <- _. reflexivity.
Qed.

(** X10.  With the lookups on, [get_clients] returns the records of one answer and
    no others: unless its loop ran out (empty list, error logged), the list
    it returns is, record for record and in the same order, the array one
    200 answer to its request carried under the envelope key, each record
    with its fields as they came, in their order, and [ip_addr] set (in
    place if the device had sent one, else last). *)
Theorem enriched_records_are_those_answered :
  forall net self client c w v w',
    check_client client = Ok c ->
    get_clients net self client true w = (Ok v, w') ->
    (v = VList []
     /\ hd_error (logs w')
        = Some (mk_entry (logger_name (_logger self)) ERROR
                  (failed_message "GET_CLIENTS" self)))
    \/ (exists r d h,
          net (get_request self (clients_url self c) :: h) = Responds r
          /\ status_code r = 200
          /\ json r = Ok (VDict d)
          /\ match dict_get clients_key d with
             | Some (VList records) =>
                 exists records',
                   v = VList records' /\ Forall2 same_but_ip_addr records records'
             | Some sent => v = sent
             | None => v = VList []
             end).
Proof.
  intros net self client c w v w' Hc H.
  unfold get_clients in H. unfold bind at 1, lift at 1 in H. rewrite Hc in H.
  unfold bind at 1, log at 1 in H. unfold get_clients_loop in H.
  apply for_range_result in H. destruct H as [[w1 H]|[j [w1 H]]].
  - left. unfold bind, log, ret in H. injection H as <- <-. split; reflexivity.
  - right. apply get_clients_try_true_some in H.
    destruct H as [r [d [w2 [Hn [Hs [Hj Hv]]]]]].
    exists r, d, (calls w1). repeat (split; [assumption|]).
    destruct (dict_get clients_key d) as [sent|]; [|exact Hv].
    destruct sent; try exact Hv.
    destruct Hv as [records' [-> He]]. exists records'. split; [reflexivity|].
    eapply enriched_same_but. exact He.
Qed.

Lemma enriched_records_are_those_answered_witness :
  let v := VList [VDict [("client-mac", VStr "aa:bb:cc:dd:ee:ff");
                         ("ip_addr", VList [VDict [("ipv4", VStr "10.0.0.7")]])]] in
  let w' := snd (get_clients one_client wlc1 VNone true fresh) in
  (v = VList []
   /\ hd_error (logs w')
      = Some (mk_entry (logger_name (_logger wlc1)) ERROR
                (failed_message "GET_CLIENTS" wlc1)))
  \/ (exists r d h,
        one_client (get_request wlc1 (clients_url wlc1 None) :: h) = Responds r
        /\ status_code r = 200
        /\ json r = Ok (VDict d)
        /\ match dict_get clients_key d with
           | Some (VList records) =>
               exists records',
                 v = VList records' /\ Forall2 same_but_ip_addr records records'
           | Some sent => v = sent
           | None => v = VList []
           end).
Proof.
  apply (enriched_records_are_those_answered one_client wlc1 VNone None fresh).
  - reflexivity.
  - reflexivity.
Defined.

(** ** Lookups that find the address table out of reach *)

Section AddressesDown.

Variable net : transport.
Variable self : IosXeWlc.

Hypothesis addresses_fail :
  forall c h,
    outcome_fails (net (get_request self (addresses_url self c) :: h)) = true.

Lemma lookup_comes_back_empty mac c w :
  check_client mac = Ok c ->
  exists w', get_client_addresses net self mac w = (Ok (VList []), w').
Proof.
  intros Hc.
  destruct (perform_exhausted net self (GetClientAddresses mac)
              (get_request self (addresses_url self c)) w) as [w' [Hp _]].
  - simpl. rewrite Hc. reflexivity.
  - intros j _. apply addresses_fail.
  - exists w'. exact Hp.
Qed.

Lemma add_ip_info_all_empty items :
  Forall (fun x => good_record x = true) items ->
  forall w, exists w',
    add_ip_info net self items w = (Ok (map without_addresses items), w').
Proof.
  induction 1 as [|client_obj rest Hg _ IH]; intros w.
  - eexists. reflexivity.
  - rewrite add_ip_info_cons.
    destruct client_obj; try discriminate Hg.
    cbn [good_record] in Hg. cbn [py_getitem py_setitem].
    destruct (dict_get "client-mac" fields) as [mac|]; [|discriminate Hg].
    destruct (check_client mac) as [c|e] eqn:Hc; [|discriminate Hg].
    destruct (lookup_comes_back_empty mac c w Hc) as [w1 Ha]. rewrite Ha.
    destruct (IH w1) as [w2 Hr]. rewrite Hr. eexists. reflexivity.
Qed.

End AddressesDown.

(** X11.  A lookup that fails does so in silence.  When the client list is answered
    (after [k] failed attempts, with records in order) but every request for
    addresses meets an exception or a status other than 200, [get_clients]
    still returns the whole list, each record with the empty list as its
    [ip_addr]: in the result nothing tells an unreachable address table from
    a client without addresses. *)
Theorem unreachable_addresses_give_empty_ip_addr :
  forall net self client c w k r records,
    check_client client = Ok c ->
    (k < Z.to_nat (retry self))%nat ->
    (forall j, (j < k)%nat ->
       outcome_fails
         (attempt_outcome net (get_request self (clients_url self c)) w j) = true) ->
    attempt_outcome net (get_request self (clients_url self c)) w k = Responds r ->
    status_code r = 200 ->
    envelope clients_key r = Some records ->
    Forall (fun x => good_record x = true) records ->
    (forall c' h,
       outcome_fails (net (get_request self (addresses_url self c') :: h)) = true) ->
    exists w',
      get_clients net self client true w
      = (Ok (VList (map without_addresses records)), w').
Proof.
  intros net self client c w k r records Hc Hk Hfail Hr Hs He Hgood Hdown.
  unfold get_clients. unfold bind at 1, lift at 1. rewrite Hc.
  unfold bind at 1, log at 1. unfold get_clients_loop.
  set (w0 := mk_world (calls w) _).
  destruct (for_range_skips net self value
              (get_request self (clients_url self c))
              (get_clients_try net self c true)
              (log (_logger self) ERROR (failed_message "GET_CLIENTS" self) ;;
               ret (VList []))
              (get_clients_try_fails net self c true)
              k (Z.to_nat (retry self) - k) 0 w0 Hfail)
    as [wk [Hf [Hcalls _]]].
  replace (k + (Z.to_nat (retry self) - k))%nat with (Z.to_nat (retry self))
    in Hf by lia.
  rewrite Hf.
  destruct (Z.to_nat (retry self) - k)%nat as [|m] eqn:Hm; [lia|].
  cbn [for_range]. unfold bind at 1.
  rewrite (get_clients_try_with_records net self c _ wk r records);
    [| rewrite Hcalls; exact Hr | exact Hs | exact He].
  destruct (add_ip_info_all_empty net self Hdown records Hgood
              (lookups_begin self c (0 + Z.of_nat k) r records wk)) as [w' Ha].
  rewrite Ha. unfold ret. eauto.
Qed.

Lemma unreachable_addresses_give_empty_ip_addr_witness :
  exists w',
    get_clients addresses_down wlc1 VNone true fresh
    = (Ok (VList [VDict [("client-mac", VStr "aa:bb:cc:dd:ee:ff");
                         ("username", VStr "guest");
                         ("ip_addr", VList [])]]), w').
Proof.
  apply (unreachable_addresses_give_empty_ip_addr addresses_down wlc1 VNone None
           fresh 0
           (mk_response 200
              (Ok (VDict [(clients_key,
                           VList [VDict [("client-mac", VStr "aa:bb:cc:dd:ee:ff");
                                         ("username", VStr "guest")]])]))
              "0.01")
           [VDict [("client-mac", VStr "aa:bb:cc:dd:ee:ff");
                   ("username", VStr "guest")]]).
  - reflexivity.
  - simpl; lia.
  - intros j Hj; lia.
  - reflexivity.
  - reflexivity.
  - reflexivity.
  - repeat constructor.
  - intros c' h. reflexivity.
Defined.

(** ** What the log tells *)

Section LogOfALoop.

Variable self : IosXeWlc.
Variable A : Type.
Variable req : request.
Variable body : Z -> M (option A).
Variable lvl : level.
Variable emsg : string.
Variable neg : A.

(** Every turn sends the request and logs one entry: at [lvl] if it
    returns, a warning if it asks for the next turn. *)
Hypothesis body_logs :
  forall i w o w',
    body i w = (Ok o, w') ->
    calls w' = req :: calls w
    /\ exists e, logs w' = e :: logs w
                 /\ own_entry self (match o with Some _ => lvl | None => WARNING end) e.

Lemma for_range_log n :
  forall i w a w',
    for_range n i body (log (_logger self) ERROR emsg ;; ret neg) w = (Ok a, w') ->
    exists warns last,
      logs w' = last :: (warns ++ logs w)%list
      /\ Forall (own_entry self WARNING) warns
      /\ (List.length warns <= n)%nat
      /\ ((last = mk_entry (logger_name (_logger self)) ERROR emsg
           /\ a = neg /\ List.length warns = n
           /\ calls w' = (repeat req n ++ calls w)%list)
          \/ (own_entry self lvl last
              /\ (List.length warns < n)%nat
              /\ calls w' = (repeat req (S (List.length warns)) ++ calls w)%list)).
Proof.
  induction n as [|n IH]; intros i w a w' H; simpl in H.
  - unfold bind, log, ret in H. injection H as <- <-.
    exists [], (mk_entry (logger_name (_logger self)) ERROR emsg).
    split; [reflexivity|]. split; [constructor|]. split; [simpl; lia|].
    left. repeat split.
  - unfold bind in H. destruct (body i w) as [[o|e] w1] eqn:Hb; [|discriminate].
    destruct (body_logs i w o w1 Hb) as [Hc [e [Hl He]]].
    destruct o as [b|].
    + unfold ret in H. injection H as <- <-.
      exists [], e.
      split; [exact Hl|]. split; [constructor|]. split; [simpl; lia|].
      right. split; [exact He|]. split; [simpl; lia | exact Hc].
    + destruct (IH _ _ _ _ H) as [warns [last [Hl' [Hw [Hn Hcase]]]]].
      exists (warns ++ [e])%list, last. split; [|split; [|split]].
      * rewrite Hl', Hl, <- app_assoc. reflexivity.
      * apply Forall_app. split; [exact Hw | constructor; [exact He | constructor]].
      * rewrite length_app. simpl. lia.
      * rewrite length_app. simpl.
        destruct Hcase as [[-> [-> [Hlen Hcalls]]]|[Hlast [Hlen Hcalls]]].
        -- left. split; [reflexivity|]. split; [reflexivity|].
           split; [lia|]. rewrite Hcalls, Hc. apply repeat_shift.
        -- right. split; [exact Hlast|]. split; [lia|].
           rewrite Hcalls, Hc.
           replace (Datatypes.length warns + 1)%nat with (S (List.length warns))
             by lia.
           apply (repeat_shift req (S (List.length warns))).
Qed.

End LogOfALoop.

Section LogOfATurn.

Variable net : transport.
Variable self : IosXeWlc.

Lemma test_try_logs i w o w' :
  test_try net self i w = (Ok o, w') ->
  calls w' = get_request self (test_url self) :: calls w
  /\ exists e, logs w' = e :: logs w
               /\ own_entry self (match o with Some _ => INFO | None => WARNING end) e.
Proof.
  unfold test_try. unfold_monad.
  destruct (net _) as [r|e]; [destruct (status_code r =? 200)|];
    intros H; injection H as <- <-; simpl; split; try reflexivity;
    eexists; split; try reflexivity; split; reflexivity.
Qed.

Lemma get_client_addresses_try_logs client i w o w' :
  get_client_addresses_try net self client i w = (Ok o, w') ->
  calls w' = get_request self (addresses_url self client) :: calls w
  /\ exists e, logs w' = e :: logs w
               /\ own_entry self (match o with Some _ => DEBUG | None => WARNING end) e.
Proof.
  unfold get_client_addresses_try. unfold_monad.
  destruct (net _) as [r|e]; [destruct (status_code r =? 200)|];
    [destruct (json r) as [body|e]; [destruct body; simpl|]| |];
    try destruct (py_len _);
    intros H; injection H as <- <-; simpl; split; try reflexivity;
    eexists; split; try reflexivity; split; reflexivity.
Qed.

Lemma get_clients_try_logs client i w o w' :
  get_clients_try net self client false i w = (Ok o, w') ->
  calls w' = get_request self (clients_url self client) :: calls w
  /\ exists e, logs w' = e :: logs w
               /\ own_entry self (match o with Some _ => DEBUG | None => WARNING end) e.
Proof.
  unfold get_clients_try, get_ip_info_block. unfold_monad.
  destruct (net _) as [r|e]; [destruct (status_code r =? 200)|];
    [destruct (json r) as [body|e]; [destruct body; simpl|]| |];
    try destruct (py_len _);
    intros H; injection H as <- <-; simpl; split; try reflexivity;
    eexists; split; try reflexivity; split; reflexivity.
Qed.

End LogOfATurn.

(** X12.  The log of an operation without lookups reads: one debug entry at the
    start, one warning for every attempt that failed, and one last entry,
    which is the error message exactly when the loop ran out (the result is
    then the negative one and [retry] requests were sent) and otherwise the
    entry of the attempt that succeeded (info for [test], debug for the
    listings), one request having been sent per warning and one more.  All
    of them are entries of the instance's own logger.  So the log tells an
    empty list that was answered from one that stands for failure. *)
Theorem log_of_an_operation :
  forall net self op req w v w',
    without_lookups op = true ->
    own_request self op = Ok req ->
    perform net self op w = (Ok v, w') ->
    exists start warns last,
      logs w' = last :: (warns ++ start :: logs w)%list
      /\ own_entry self DEBUG start
      /\ Forall (own_entry self WARNING) warns
      /\ ((last = mk_entry (logger_name (_logger self)) ERROR
                    (failed_message (op_name op) self)
           /\ v = negative_result op
           /\ List.length warns = Z.to_nat (retry self)
           /\ calls w' = (repeat req (Z.to_nat (retry self)) ++ calls w)%list)
          \/ (own_entry self (success_level op) last
              /\ (List.length warns < Z.to_nat (retry self))%nat
              /\ calls w' = (repeat req (S (List.length warns)) ++ calls w)%list)).
Proof.
  intros net self op req w v w' Hop Hreq H.
  destruct op as [|client g|client].
  - injection Hreq as <-. simpl in H. unfold bind at 1 in H.
    destruct (test net self w) as [[b|e] w1] eqn:Ht; [|discriminate].
    unfold ret in H. injection H as <- <-.
    unfold test in Ht. unfold bind at 1, log at 1 in Ht.
    apply (for_range_log self bool (get_request self (test_url self))
             (test_try net self) INFO _ false (test_try_logs net self)) in Ht.
    destruct Ht as [warns [last [Hl [Hw [_ Hcase]]]]].
    eexists _, warns, last. split; [exact Hl|]. split; [split; reflexivity|].
    split; [exact Hw|].
    destruct Hcase as [[-> [-> [Hn Hc]]]|[Hlast [Hn Hc]]]; [left | right]; auto.
  - destruct (own_request_clients _ _ _ _ Hreq) as [c [Hc ->]].
    simpl in Hop. destruct g; [discriminate|]. simpl in H.
    unfold get_clients in H. unfold bind at 1, lift at 1 in H. rewrite Hc in H.
    unfold bind at 1, log at 1 in H. unfold get_clients_loop in H.
    apply (for_range_log self value (get_request self (clients_url self c))
             (get_clients_try net self c false) DEBUG _ (VList [])
             (get_clients_try_logs net self c)) in H.
    destruct H as [warns [last [Hl [Hw [_ Hcase]]]]].
    eexists _, warns, last. split; [exact Hl|]. split; [split; reflexivity|].
    split; [exact Hw|].
    destruct Hcase as [[-> [-> [Hn Hcs]]]|[Hlast [Hn Hcs]]]; [left | right]; auto.
  - destruct (own_request_addresses _ _ _ Hreq) as [c [Hc ->]].
    simpl in H.
    unfold get_client_addresses in H. unfold bind at 1, lift at 1 in H.
    rewrite Hc in H.
    unfold bind at 1, log at 1 in H. unfold get_client_addresses_loop in H.
    apply (for_range_log self value (get_request self (addresses_url self c))
             (get_client_addresses_try net self c) DEBUG _ (VList [])
             (get_client_addresses_try_logs net self c)) in H.
    destruct H as [warns [last [Hl [Hw [_ Hcase]]]]].
    eexists _, warns, last. split; [exact Hl|]. split; [split; reflexivity|].
    split; [exact Hw|].
    destruct Hcase as [[-> [-> [Hn Hcs]]]|[Hlast [Hn Hcs]]]; [left | right]; auto.
Qed.

Lemma log_of_an_operation_witness :
  let w' := snd (perform third_time_lucky wlc1 (GetClientAddresses VNone) fresh) in
  exists start warns last,
    logs w' = last :: (warns ++ start :: [])%list
    /\ own_entry wlc1 DEBUG start
    /\ Forall (own_entry wlc1 WARNING) warns
    /\ ((last = mk_entry (logger_name (_logger wlc1)) ERROR
                  (failed_message "GET_CLIENT_ADDRESSES" wlc1)
         /\ VList [] = VList []
         /\ List.length warns = 3%nat
         /\ calls w'
            = (repeat (get_request wlc1 (addresses_url wlc1 None)) 3 ++ [])%list)
        \/ (own_entry wlc1 DEBUG last
            /\ (List.length warns < 3)%nat
            /\ calls w'
               = (repeat (get_request wlc1 (addresses_url wlc1 None))
                    (S (List.length warns)) ++ [])%list)).
Proof.
  apply (log_of_an_operation third_time_lucky wlc1 (GetClientAddresses VNone)
           (get_request wlc1 (addresses_url wlc1 None)) fresh (VList [])).
  - reflexivity.
  - reflexivity.
  - reflexivity.
Defined.
